(** * Land use agreement invoices: settlement and numbering

    A shallow embedding of [LandUseAgreementInvoice.update_amounts],
    [LandUseAgreementInvoice.generate_number] and
    [LandUseAgreementInvoiceRow.update_amount] from
    [leasing/models/land_use_agreement.py], together with the tables
    they read and write.

    Conventions.
    - A [Decimal] with two decimal places (every amount column is a
      [DecimalField(decimal_places=2)]) is an integer number of cents.
      Sums and differences of such values are exact.
    - A table is a finite map from primary key to record.  A related
      manager ([self.rows], [self.payments], [self.credit_invoices],
      [credit_inv.rows]) is the list of records of the table whose foreign
      key points to the owner and whose [deleted] column is null: all these
      models are safe-delete models, and their managers hide soft-deleted
      records (see the comment in [update_amounts] about deleted rows).
    - A method that mutates [self] and saves it takes the store and the
      object and returns the new store and the new object.
    - Store operations themselves are assumed to succeed; the one
      exception is the insert of a land use agreement identifier, which
      the [unique_together] constraint declared on the model refuses for
      a duplicate.  The store of invoices does not check the range of a
      column (ten digits for an amount, 0 to 2147483647 for a number) nor
      the unique constraint on [number], and a save leaves [deleted] as
      it is: a theorem that says a call completes, or what a save
      stores, has these as hypotheses. *)

From stdpp Require Import gmap strings list fin_maps.
From Stdlib Require Import ZArith Lia.
From Stdlib Require Import Ascii DecimalString DecimalPos DecimalZ.

Local Open Scope Z_scope.

(** ** Enumerations ([leasing.enums]) *)

(** Modelled from the spec: [leasing.enums.InvoiceState] is not among the
    sources; the lifecycle states are OPEN, PAID and REFUNDED. *)
Inductive InvoiceState : Set := OPEN | PAID | REFUNDED.

(** Modelled from the spec: [leasing.enums.InvoiceType] is not among the
    sources; the monetary types are CHARGE and CREDIT_NOTE. *)
Inductive InvoiceType : Set := CHARGE | CREDIT_NOTE.

Global Instance InvoiceState_eq_dec : EqDecision InvoiceState.
Proof. solve_decision. Defined.

Global Instance InvoiceType_eq_dec : EqDecision InvoiceType.
Proof. solve_decision. Defined.

(** ** Decimal values *)

Abbreviation Decimal := Z (only parsing).

(** [Decimal.compare]: -1, 0 or 1. *)
Definition Decimal_compare (a b : Decimal) : Decimal :=
  match a ?= b with
  | Lt => -1
  | Eq => 0
  | Gt => 1
  end.

(** Truth value of a [Decimal]: false exactly at zero. *)
Definition Decimal_bool (d : Decimal) : bool := negb (d =? 0).

(** ** Records *)

(** [LandUseAgreementInvoiceRow] (columns used by the settlement). *)
Record LandUseAgreementInvoiceRow : Set := mkRow {
  row_invoice : Z;
  amount : Decimal;
  compensation_amount : Decimal;
  increase_percentage : Decimal;
  plan_lawfulness_date : option Z;
  sign_date : option Z;
  row_deleted : option Z
}.

(** [LandUseAgreementInvoicePayment]. *)
Record LandUseAgreementInvoicePayment : Set := mkPayment {
  payment_invoice : Z;
  paid_amount : Decimal;
  payment_deleted : option Z
}.

(** [LandUseAgreementInvoice]. [number] is a nullable
    [PositiveIntegerField]; [credited_invoice] a nullable foreign key. *)
Record LandUseAgreementInvoice : Set := mkInvoice {
  pk : Z;
  billed_amount : Decimal;
  credited_invoice : option Z;
  number : option Z;
  outstanding_amount : Decimal;
  state : InvoiceState;
  total_amount : Decimal;
  type : InvoiceType;
  deleted : option Z
}.

Global Instance Row_eq_dec : EqDecision LandUseAgreementInvoiceRow.
Proof. solve_decision. Defined.

Global Instance Payment_eq_dec : EqDecision LandUseAgreementInvoicePayment.
Proof. solve_decision. Defined.

Global Instance Invoice_eq_dec : EqDecision LandUseAgreementInvoice.
Proof. solve_decision. Defined.

(** ** The store *)

Record Store : Type := mkStore {
  invoices : gmap Z LandUseAgreementInvoice;
  rows : gmap Z LandUseAgreementInvoiceRow;
  payments : gmap Z LandUseAgreementInvoicePayment;
  sequences : gmap string Z
}.

Definition set_rows (R : gmap Z LandUseAgreementInvoiceRow) (st : Store) : Store :=
  {| invoices := invoices st; rows := R;
     payments := payments st; sequences := sequences st |}.

Definition set_invoices (I : gmap Z LandUseAgreementInvoice) (st : Store) : Store :=
  {| invoices := I; rows := rows st;
     payments := payments st; sequences := sequences st |}.

Definition set_sequences (S : gmap string Z) (st : Store) : Store :=
  {| invoices := invoices st; rows := rows st;
     payments := payments st; sequences := S |}.

(** ** Related managers *)

(** [invoice.rows.all()] for the invoice with primary key [i]. *)
Definition rows_all (st : Store) (i : Z) : list (Z * LandUseAgreementInvoiceRow) :=
  filter (λ kr, row_invoice kr.2 = i ∧ row_deleted kr.2 = None)
         (map_to_list (rows st)).

(** [invoice.payments.all()]. *)
Definition payments_all (st : Store) (i : Z)
  : list (Z * LandUseAgreementInvoicePayment) :=
  filter (λ kp, payment_invoice kp.2 = i ∧ payment_deleted kp.2 = None)
         (map_to_list (payments st)).

(** [invoice.credit_invoices.all()]: the reverse side of
    [credited_invoice]. *)
Definition credit_invoices_all (st : Store) (i : Z)
  : list (Z * LandUseAgreementInvoice) :=
  filter (λ kc, credited_invoice kc.2 = Some i ∧ deleted kc.2 = None)
         (map_to_list (invoices st)).

(** The sum of a column over a list of records. *)
Definition sum_with {A : Type} (field : A → Decimal) (qs : list A) : Decimal :=
  foldr (λ x acc, field x + acc) 0 qs.

(** [queryset.aggregate(sum=Sum(field))["sum"]]: [None] on an empty
    queryset. *)
Definition aggregate_Sum {A : Type} (field : A → Decimal) (qs : list A)
  : option Decimal :=
  match qs with
  | [] => None
  | _ => Some (sum_with field qs)
  end.

(** [if not x: x = Decimal(0)] for [x] that is [None] or a [Decimal]. *)
Definition or_Decimal0 (x : option Decimal) : Decimal :=
  match x with
  | None => 0
  | Some d => if Decimal_bool d then d else 0
  end.

(** ** Setters for the mutated attributes *)

Definition with_amount (a : Decimal) (r : LandUseAgreementInvoiceRow)
  : LandUseAgreementInvoiceRow :=
  {| row_invoice := row_invoice r; amount := a;
     compensation_amount := compensation_amount r;
     increase_percentage := increase_percentage r;
     plan_lawfulness_date := plan_lawfulness_date r;
     sign_date := sign_date r; row_deleted := row_deleted r |}.

Definition with_amounts (billed total outstanding : Decimal) (s : InvoiceState)
  (self : LandUseAgreementInvoice) : LandUseAgreementInvoice :=
  {| pk := pk self; billed_amount := billed;
     credited_invoice := credited_invoice self; number := number self;
     outstanding_amount := outstanding; state := s; total_amount := total;
     type := type self; deleted := deleted self |}.

Definition with_number (n : Z) (self : LandUseAgreementInvoice)
  : LandUseAgreementInvoice :=
  {| pk := pk self; billed_amount := billed_amount self;
     credited_invoice := credited_invoice self; number := Some n;
     outstanding_amount := outstanding_amount self; state := state self;
     total_amount := total_amount self; type := type self;
     deleted := deleted self |}.

Definition with_state (s : InvoiceState) (self : LandUseAgreementInvoice)
  : LandUseAgreementInvoice :=
  with_amounts (billed_amount self) (total_amount self)
    (outstanding_amount self) s self.

(** [self.save()] on an invoice: the row of the table is replaced by
    the object.  The save is taken to succeed and to keep [deleted];
    the database refuses an amount of more than ten digits and a number
    that another invoice has or that is out of range, and the save of a
    soft-deleted object clears [deleted]; see [fits_max_digits_10],
    [numbers_issued] and [invoice_numbers_fit]. *)
Definition save_invoice (self : LandUseAgreementInvoice) (st : Store) : Store :=
  set_invoices (<[pk self := self]> (invoices st)) st.

(** [row.save()] on the row with primary key [k].  The save is taken
    to succeed; the database refuses an amount of more than ten digits,
    see [fits_max_digits_10]. *)
Definition save_row (k : Z) (r : LandUseAgreementInvoiceRow) (st : Store) : Store :=
  set_rows (<[k := r]> (rows st)) st.

(** ** Settlement *)

Section Settlement.

(** [leasing.utils.calculate_increase_with_360_day_calendar] is not among
    the sources.  It is a parameter here: a function of the two dates, the
    percentage and the current amount, which either yields an amount or
    raises ([None]). *)
Variable calculate_increase_with_360_day_calendar :
  option Z → option Z → Decimal → Decimal → option Decimal.

(** The new value of [row.amount] in
    [LandUseAgreementInvoiceRow.update_amount]. *)
Definition new_amount (r : LandUseAgreementInvoiceRow) : option Decimal :=
  calculate_increase_with_360_day_calendar
    (sign_date r) (plan_lawfulness_date r)
    (increase_percentage r) (compensation_amount r).

(** [LandUseAgreementInvoiceRow.update_amount]. *)
Definition update_amount (k : Z) (r : LandUseAgreementInvoiceRow) (st : Store)
  : option Store :=
  a ← new_amount r;
  Some (save_row k (with_amount a r) st).

(** [for row in self.rows.all(): row.update_amount()], over the rows
    the queryset has fetched. *)
Fixpoint update_row_amounts (qs : list (Z * LandUseAgreementInvoiceRow))
  (st : Store) : option Store :=
  match qs with
  | [] => Some st
  | (k, r) :: qs' => st' ← update_amount k r st; update_row_amounts qs' st'
  end.

(** The inner loop of the credit tally:
    [for row in credit_inv.rows.all(): total_credited_amount += row.amount]. *)
Definition tally_rows (qs : list (Z * LandUseAgreementInvoiceRow))
  (total : Decimal) : Decimal :=
  fold_left (λ acc kr, acc + amount kr.2) qs total.

(** The outer loop: [for credit_inv in self.credit_invoices.all(): ...]. *)
Definition tally_credit_invoices (st : Store)
  (qs : list (Z * LandUseAgreementInvoice)) (total : Decimal) : Decimal :=
  fold_left (λ acc kc, tally_rows (rows_all st kc.1) acc) qs total.

(** [total_credited_amount] once both loops have run, for the invoice
    with primary key [i]. *)
Definition total_credited_amount (st : Store) (i : Z) : Decimal :=
  tally_credit_invoices st (credit_invoices_all st i) 0.

(** The state decided at the end of [update_amounts]. *)
Definition next_state (self_type : InvoiceType) (self_state : InvoiceState)
  (billed outstanding total_credited_amount : Decimal) : InvoiceState :=
  if negb (total_credited_amount =? 0)
     && negb (Decimal_compare total_credited_amount billed =? -1)
  then REFUNDED
  else if bool_decide (self_type = CHARGE) && (outstanding =? 0)
  then PAID
  else self_state.

(** [LandUseAgreementInvoice.update_amounts]. *)
Definition update_amounts (st : Store) (self : LandUseAgreementInvoice)
  : option (Store * LandUseAgreementInvoice) :=
  st1 ← update_row_amounts (rows_all st (pk self)) st;
  let rows_sum :=
    or_Decimal0 (aggregate_Sum (λ kr, amount kr.2) (rows_all st1 (pk self))) in
  let payments_total :=
    or_Decimal0
      (aggregate_Sum (λ kp, paid_amount kp.2) (payments_all st1 (pk self))) in
  let total_credited_amount := total_credited_amount st1 (pk self) in
  let outstanding := Z.max 0 (rows_sum - payments_total - total_credited_amount) in
  let self' :=
    with_amounts rows_sum rows_sum outstanding
      (next_state (type self) (state self) rows_sum outstanding
         total_credited_amount)
      self in
  Some (save_invoice self' st1, self').

End Settlement.

(** ** Numbering *)

(** Modelled from the spec: [sequences.get_next_value] is not among the
    sources.  The first call for a name stores and returns the initial
    value; every later call ignores the initial value and returns the
    stored value plus one.  The whole step is atomic. *)
Definition get_next_value (sequence_name : string) (initial_value : Z)
  (seqs : gmap string Z) : Z * gmap string Z :=
  let v := match seqs !! sequence_name with
           | None => initial_value
           | Some last => last + 1
           end in
  (v, <[sequence_name := v]> seqs).

(** Truth value of [self.number]: [None] and [0] are false. *)
Definition number_bool (n : option Z) : bool :=
  match n with
  | None => false
  | Some v => negb (v =? 0)
  end.

(** [LandUseAgreementInvoice.generate_number]: the new store, the object
    and the returned number.  The save inside the transaction is taken
    to succeed, as in [save_invoice]. *)
Definition generate_number (st : Store) (self : LandUseAgreementInvoice)
  : Store * LandUseAgreementInvoice * option Z :=
  if number_bool (number self) then (st, self, number self)
  else
    let '(v, seqs) := get_next_value "invoice_numbers" 1000000 (sequences st) in
    let self' := with_number v self in
    (save_invoice self' (set_sequences seqs st), self', number self').

(** ** Callers of the allocator *)

(** One call [get_next_value(sequence_name, initial_value)] by a caller. *)
Record Call : Set := mkCall {
  caller : nat;
  sequence_name : string;
  initial_value : Z
}.

(** Concurrent callers of the atomic allocation step are interleaved in
    some order, the commit order.  [run_calls] performs the calls in that
    order and pairs each with the value it received. *)
Fixpoint run_calls (calls : list Call) (seqs : gmap string Z) : list (Call * Z) :=
  match calls with
  | [] => []
  | c :: calls' =>
      let '(v, seqs') := get_next_value (sequence_name c) (initial_value c) seqs in
      (c, v) :: run_calls calls' seqs'
  end.

(** The initial value the first call for [name] passes, if there is one. *)
Definition first_initial_value (name : string) (calls : list Call) : option Z :=
  initial_value <$> head (filter (λ c, sequence_name c = name) calls).

(** ** What the settlement is specified to compute *)

(** Sum of the amounts of the invoice's rows. *)
Definition rows_total (st : Store) (i : Z) : Decimal :=
  sum_with (λ kr, amount kr.2) (rows_all st i).

(** Sum of the paid amounts of the invoice's payments. *)
Definition payments_total (st : Store) (i : Z) : Decimal :=
  sum_with (λ kp, paid_amount kp.2) (payments_all st i).

(** Sum, over the invoices that credit invoice [i], of the amounts of
    their rows; invoices and rows as their managers present them. *)
Definition credited_total (st : Store) (i : Z) : Decimal :=
  sum_with (λ kc, rows_total st kc.1) (credit_invoices_all st i).

(** The same sum over every record of the tables, soft-deleted ones
    included. *)
Definition credited_total_in_full (st : Store) (i : Z) : Decimal :=
  sum_with
    (λ kc, sum_with (λ kr, amount kr.2)
             (filter (λ kr, row_invoice kr.2 = kc.1) (map_to_list (rows st))))
    (filter (λ kc, credited_invoice kc.2 = Some i) (map_to_list (invoices st))).

(** The invoice a settlement over the tables of [st] is specified to
    produce: billed and total amount are the row total, the outstanding
    amount is what payments and credits leave of it, never below zero, and
    the state follows the priority REFUNDED, PAID, unchanged. *)
Definition settled_invoice (st : Store) (self : LandUseAgreementInvoice)
  : LandUseAgreementInvoice :=
  let billed := rows_total st (pk self) in
  let credited := credited_total st (pk self) in
  let outstanding :=
    Z.max 0 (billed - payments_total st (pk self) - credited) in
  with_amounts billed billed outstanding
    (if decide (credited ≠ 0 ∧ billed ≤ credited) then REFUNDED
     else if decide (type self = CHARGE ∧ outstanding = 0) then PAID
     else state self)
    self.

(** Some amount that enters the settlement of invoice [i] is negative. *)
Definition negative_amount (st : Store) (i : Z) : Prop :=
  (∃ k r, rows st !! k = Some r ∧ row_invoice r = i ∧ row_deleted r = None
          ∧ (amount r < 0 ∨ compensation_amount r < 0))
  ∨ (∃ k p, payments st !! k = Some p ∧ payment_invoice p = i
            ∧ payment_deleted p = None ∧ paid_amount p < 0).

(** The counter of invoice numbers, when there is one, is not negative. *)
Definition invoice_numbers_counter_ok (st : Store) : Prop :=
  match sequences st !! "invoice_numbers" with
  | Some last => 0 ≤ last
  | None => True
  end.

(** The row as [update_amount] saves it, with its primary key; the
    amount is kept where the helper raises. *)
Definition recalculated
  (calc : option Z → option Z → Decimal → Decimal → option Decimal)
  (kr : Z * LandUseAgreementInvoiceRow) : Z * LandUseAgreementInvoiceRow :=
  (kr.1, with_amount (default (amount kr.2) (new_amount calc kr.2)) kr.2).

(** Every number stored on an invoice was handed out by the sequence of
    invoice numbers: it is at most the counter. *)
Definition numbers_issued (st : Store) : Prop :=
  ∀ j inv n, invoices st !! j = Some inv → number inv = Some n →
    ∃ last, sequences st !! "invoice_numbers" = Some last ∧ n ≤ last.

(** ** Land use agreement identifiers *)

(** [LandUseAgreementIdentifier]; a foreign key holds the primary key of
    the record it points to.  The model is a safe-delete model, and the
    four columns are declared [unique_together]. *)
Record LandUseAgreementIdentifier : Set := mkIdentifier {
  identifier_type : Z;
  identifier_municipality : Z;
  identifier_district : Z;
  sequence : Z;
  identifier_deleted : option Z
}.

(** [LandUseAgreement] (columns used by [create_identifier] and [save]).
    A related object that is not set is [None]; [agreement_pk] is [None]
    until the agreement is first saved. *)
Record LandUseAgreement : Set := mkAgreement {
  agreement_pk : option Z;
  identifier_id : option Z;
  agreement_type : option Z;
  agreement_municipality : option Z;
  agreement_district : option Z
}.

Global Instance Identifier_eq_dec : EqDecision LandUseAgreementIdentifier.
Proof. solve_decision. Defined.

Global Instance Agreement_eq_dec : EqDecision LandUseAgreement.
Proof. solve_decision. Defined.

Record AgreementStore : Type := mkAgreementStore {
  identifiers : gmap Z LandUseAgreementIdentifier;
  agreements : gmap Z LandUseAgreement
}.

(** The primary key the store gives a new record of a table: one above
    every key in use, and at least 1. *)
Definition next_pk {V : Type} (table : gmap Z V) : Z :=
  1 + foldr (λ kv acc, Z.max kv.1 acc) 0 (map_to_list table).

(** [LandUseAgreementIdentifier.objects.filter(type=..., municipality=...,
    district=...)]; the manager hides soft-deleted identifiers. *)
Definition identifiers_filter (st : AgreementStore) (t m d : Z)
  : list (Z * LandUseAgreementIdentifier) :=
  filter (λ ki, identifier_type ki.2 = t ∧ identifier_municipality ki.2 = m
                ∧ identifier_district ki.2 = d ∧ identifier_deleted ki.2 = None)
         (map_to_list (identifiers st)).

(** [queryset.aggregate(Max(field))]: [None] on an empty queryset. *)
Definition aggregate_Max {A : Type} (field : A → Z) (qs : list A) : option Z :=
  match qs with
  | [] => None
  | x :: qs' => Some (foldr (λ y acc, Z.max (field y) acc) (field x) qs')
  end.

(** [max_sequence] in [create_identifier], after
    [if not max_sequence: max_sequence = 0]. *)
Definition max_sequence (st : AgreementStore) (t m d : Z) : Z :=
  match aggregate_Max (λ ki, sequence ki.2) (identifiers_filter st t m d) with
  | None => 0
  | Some v => if v =? 0 then 0 else v
  end.

(** Two identifiers agree on the [unique_together] columns. *)
Definition same_unique_together (a b : LandUseAgreementIdentifier) : Prop :=
  identifier_type a = identifier_type b
  ∧ identifier_municipality a = identifier_municipality b
  ∧ identifier_district a = identifier_district b
  ∧ sequence a = sequence b.

Global Instance same_unique_together_dec a b :
  Decision (same_unique_together a b).
Proof. unfold same_unique_together. apply _. Defined.

(** [LandUseAgreementIdentifier.objects.create(...)]: the insert is
    refused ([None]) when a record of the table, soft-deleted or not, has
    the same [unique_together] columns; otherwise the record is stored
    under a new primary key, which is returned. *)
Definition identifiers_create (i : LandUseAgreementIdentifier)
  (st : AgreementStore) : option (Z * AgreementStore) :=
  if decide (Exists (λ ki, same_unique_together ki.2 i)
               (map_to_list (identifiers st)))
  then None
  else
    let k := next_pk (identifiers st) in
    Some (k, {| identifiers := <[k := i]> (identifiers st);
                agreements := agreements st |}).

Definition with_identifier (k : Z) (self : LandUseAgreement) : LandUseAgreement :=
  {| agreement_pk := agreement_pk self; identifier_id := Some k;
     agreement_type := agreement_type self;
     agreement_municipality := agreement_municipality self;
     agreement_district := agreement_district self |}.

Definition with_pk (k : Z) (self : LandUseAgreement) : LandUseAgreement :=
  {| agreement_pk := Some k; identifier_id := identifier_id self;
     agreement_type := agreement_type self;
     agreement_municipality := agreement_municipality self;
     agreement_district := agreement_district self |}.

(** [LandUseAgreement.create_identifier].  The table lock it takes first
    has no counterpart here: calls are made one after the other. *)
Definition create_identifier (st : AgreementStore) (self : LandUseAgreement)
  : option (AgreementStore * LandUseAgreement) :=
  if number_bool (identifier_id self) then Some (st, self)
  else
    match agreement_type self, agreement_municipality self,
          agreement_district self with
    | Some t, Some m, Some d =>
        '(k, st') ← identifiers_create
                      (mkIdentifier t m d (max_sequence st t m d + 1) None) st;
        Some (st', with_identifier k self)
    | _, _, _ => Some (st, self)
    end.

(** The agreements [create_identifier] leaves alone: those that have an
    identifier and those that lack a type, municipality or district. *)
Definition settled_identifier (self : LandUseAgreement) : Prop :=
  number_bool (identifier_id self) = true
  ∨ agreement_type self = None
  ∨ agreement_municipality self = None
  ∨ agreement_district self = None.

(** [super().save()]: the agreement is written under its primary key; an
    agreement that has none yet is given a new one. *)
Definition Model_save (st : AgreementStore) (self : LandUseAgreement)
  : AgreementStore * LandUseAgreement :=
  match agreement_pk self with
  | Some k =>
      ({| identifiers := identifiers st;
          agreements := <[k := self]> (agreements st) |}, self)
  | None =>
      let k := next_pk (agreements st) in
      ({| identifiers := identifiers st;
          agreements := <[k := with_pk k self]> (agreements st) |},
       with_pk k self)
  end.

(** [LandUseAgreement.save]. *)
Definition save (st : AgreementStore) (self : LandUseAgreement)
  : option (AgreementStore * LandUseAgreement) :=
  '(st1, self1) ← create_identifier st self;
  Some (Model_save st1 self1).

(** ** Rows of the old database ([import_old_mvj]) *)

(** [dict(pairs)]: the pairs are entered in order, so a later pair
    replaces an earlier one with the same key. *)
Definition dict {V : Type} (pairs : list (string * V)) : gmap string V :=
  fold_left (λ d kv, <[kv.1 := kv.2]> d) pairs ∅.

(** A database cursor after a query: [description] has one tuple per
    column, which starts with the column's name; iterating the cursor
    yields the rows, each a tuple of cells. *)
Record Cursor (M V : Type) : Type := mkCursor {
  description : list (string * M);
  fetch : list (list V)
}.

Arguments mkCursor {M V} _ _.
Arguments description {M V} _.
Arguments fetch {M V} _.

(** [columns] in [rows_to_dict_list]. *)
Definition columns {M V : Type} (cursor : Cursor M V) : list string :=
  (λ i, i.1) <$> description cursor.

(** [rows_to_dict_list]. *)
Definition rows_to_dict_list {M V : Type} (cursor : Cursor M V)
  : list (gmap string V) :=
  (λ row, dict (zip (columns cursor) row)) <$> fetch cursor.

(** ** Lease identifiers as strings *)

(** A Python string is a [string] here: a sequence of characters with
    code points below 256. *)

(** [s.index(c)] for a character [c]: the position of its first
    occurrence; [None] where Python raises [ValueError]. *)
Fixpoint str_index (c : ascii) (s : string) : option nat :=
  match s with
  | EmptyString => None
  | String a s' => if Ascii.eqb a c then Some 0%nat else S <$> str_index c s'
  end.

(** [s[n:]] and [s[:n]] for [n] not negative. *)
Fixpoint str_drop (n : nat) (s : string) : string :=
  match n, s with
  | O, _ => s
  | S n', EmptyString => EmptyString
  | S n', String _ s' => str_drop n' s'
  end.

Fixpoint str_take (n : nat) (s : string) : string :=
  match n, s with
  | O, _ => EmptyString
  | S n', EmptyString => EmptyString
  | S n', String a s' => String a (str_take n' s')
  end.

(** [s[a:b]] for [a] and [b] not negative. *)
Definition slice (a b : nat) (s : string) : string :=
  str_take (b - a) (str_drop a s).

(** White space as [int] and [strip] see it, among the code points
    below 256. *)
Definition is_space (a : ascii) : bool :=
  let n := N_of_ascii a in
  ((9 <=? n) && (n <=? 13) || (28 <=? n) && (n <=? 32)
   || (n =? 133) || (n =? 160))%N.

Definition is_digit (a : ascii) : bool :=
  let n := N_of_ascii a in ((48 <=? n) && (n <=? 57))%N.

Fixpoint lstrip (s : string) : string :=
  match s with
  | EmptyString => EmptyString
  | String a s' => if is_space a then lstrip s' else s
  end.

Fixpoint rstrip (s : string) : string :=
  match s with
  | EmptyString => EmptyString
  | String a s' =>
      match rstrip s' with
      | EmptyString => if is_space a then EmptyString else String a EmptyString
      | r => String a r
      end
  end.

(** The digits of an integer literal: at least one digit, and single
    underscores between digits only. [after_digit] tells whether the
    character before was a digit. *)
Fixpoint digit_groups (s : string) (after_digit : bool) : bool :=
  match s with
  | EmptyString => after_digit
  | String a s' =>
      if is_digit a then digit_groups s' true
      else if Ascii.eqb a "_" && after_digit then digit_groups s' false
      else false
  end.

Fixpoint without_underscores (s : string) : string :=
  match s with
  | EmptyString => EmptyString
  | String a s' =>
      if Ascii.eqb a "_" then without_underscores s'
      else String a (without_underscores s')
  end.

Definition int_digits (s : string) : option Z :=
  if digit_groups s false
  then Z.of_uint <$> NilEmpty.uint_of_string (without_underscores s)
  else None.

(** [int(s)] for a string [s]: white space around, an optional sign,
    digits; [None] where Python raises [ValueError]. *)
Definition py_int (s : string) : option Z :=
  match rstrip (lstrip s) with
  | String "-" t => Z.opp <$> int_digits t
  | String "+" t => int_digits t
  | t => int_digits t
  end.

(** ["{}".format(n)] for an integer [n]. *)
Definition str_int (n : Z) : string := NilZero.string_of_int (Z.to_int n).

(** ["{:02}".format(n)]: padded with a zero to two characters. *)
Definition format_02 (n : Z) : string :=
  let s := str_int n in
  if (String.length s <? 2)%nat then String "0" s else s.

(** [LandUseAgreementIdentifier.__str__], from the [identifier] columns
    of the type, the municipality and the district, and the sequence. *)
Definition identifier_str (type_identifier municipality_identifier
  district_identifier : string) (sequence : Z) : option string :=
  district ← py_int district_identifier;
  Some (type_identifier +:+ municipality_identifier +:+ format_02 district
        +:+ "-" +:+ str_int sequence).

(** The dictionary [expand_lease_identifier] returns. *)
Record ExpandedIdentifier : Set := mkExpanded {
  expanded_id : string;
  ALKUOSA : string;
  TARKOITUS : string;
  KUNTA : Z;
  KAUPOSA : Z;
  JUOKSU : Z
}.

(** [expand_lease_identifier] ([import_old_mvj]). *)
Definition expand_lease_identifier (id : string) : option ExpandedIdentifier :=
  hyphen ← str_index "-" id;
  kunta ← py_int (slice 2 3 id);
  kauposa ← py_int (slice 3 5 id);
  juoksu ← py_int (str_drop (hyphen + 1) id);
  Some {| expanded_id := id;
          ALKUOSA := str_take hyphen id;
          TARKOITUS := slice 0 2 id;
          KUNTA := kunta;
          KAUPOSA := kauposa;
          JUOKSU := juoksu |}.

(** Every character of [s] is a decimal digit. *)
Fixpoint all_digits (s : string) : bool :=
  match s with
  | EmptyString => true
  | String a s' => is_digit a && all_digits s'
  end.

(** A value fits a [DecimalField(max_digits=10, decimal_places=2)]: its
    number of cents has at most ten digits. *)
Definition fits_max_digits_10 (d : Decimal) : Prop := Z.abs d < 10 ^ 10.

(** The next [n] values of the sequence of invoice numbers fit the
    [PositiveIntegerField] [number]: they lie between 0 and 2147483647. *)
Definition invoice_numbers_fit (n : Z) (st : Store) : Prop :=
  match sequences st !! "invoice_numbers" with
  | Some last => 0 ≤ last + 1 ∧ last + n ≤ 2147483647
  | None => 1000000 + n - 1 ≤ 2147483647
  end.

(** ** Sample data *)

Module Sample.

(** An instance of the missing helper for the examples: it raises when a
    date is missing and otherwise adds [increase_percentage] percent of
    the amount, rounded down to the cent. *)
Definition increase (d1 d2 : option Z) (percentage current : Decimal)
  : option Decimal :=
  match d1, d2 with
  | Some _, Some _ => Some (current + current * percentage / 10000)
  | _, _ => None
  end.

Definition charge : LandUseAgreementInvoice :=
  mkInvoice 1 0 None None 0 OPEN 0 CHARGE None.

Definition credit_note : LandUseAgreementInvoice :=
  mkInvoice 2 0 (Some 1) None 0 OPEN 0 CREDIT_NOTE None.

(** An invoice without rows, payments or credit notes, whose number
    is 0. *)
Definition bare : LandUseAgreementInvoice :=
  mkInvoice 3 0 None (Some 0) 0 OPEN 0 CHARGE None.

(** Invoice 1 has one row, a compensation of 800.00 to be increased by
    2.50 percent, and a payment of 100.00; credit note 2 has a row of
    300.00 and a soft-deleted row of 500.00. *)
Definition store : Store :=
  {| invoices := list_to_map [(1, charge); (2, credit_note); (3, bare)];
     rows := list_to_map
               [(10, mkRow 1 0 80000 250 (Some 5) (Some 3) None);
                (11, mkRow 2 30000 30000 0 (Some 5) (Some 3) None);
                (12, mkRow 2 50000 50000 0 (Some 5) (Some 3) (Some 7))];
     payments := list_to_map [(20, mkPayment 1 10000 None)];
     sequences := ∅ |}.

(** The same store with a refund of 2.50 recorded as a negative
    payment. *)
Definition store_negative : Store :=
  {| invoices := invoices store; rows := rows store;
     payments := <[21 := mkPayment 1 (-250) None]> (payments store);
     sequences := sequences store |}.

(** Invoice 1 and the store after [update_amounts]: billed 820.00, of
    which 100.00 are paid and 300.00 credited. *)
Definition charge_settled : LandUseAgreementInvoice :=
  mkInvoice 1 82000 None None 42000 OPEN 82000 CHARGE None.

Definition store_settled : Store :=
  {| invoices := list_to_map [(1, charge_settled); (2, credit_note); (3, bare)];
     rows := list_to_map
               [(10, mkRow 1 82000 80000 250 (Some 5) (Some 3) None);
                (11, mkRow 2 30000 30000 0 (Some 5) (Some 3) None);
                (12, mkRow 2 50000 50000 0 (Some 5) (Some 3) (Some 7))];
     payments := payments store;
     sequences := sequences store |}.

(** Invoice 1 after [update_amounts] over [store_negative]. *)
Definition charge_settled_negative : LandUseAgreementInvoice :=
  mkInvoice 1 82000 None None 42250 OPEN 82000 CHARGE None.

(** The state of credit note 2 set to PAID. *)
Definition store_credit_note_paid : Store :=
  save_invoice (with_state PAID credit_note) store.

Definition calls : list Call :=
  [mkCall 0 "invoice_numbers" 1000000; mkCall 1 "other" 5;
   mkCall 1 "invoice_numbers" 1000000; mkCall 0 "invoice_numbers" 7].

End Sample.

Module SampleAgreements.

(** Identifiers 1 to 3 belong to the group of type 7, municipality 1 and
    district 22, the third of them soft-deleted; identifier 4 belongs to
    district 5. *)
Definition store : AgreementStore :=
  {| identifiers := list_to_map
                      [(1, mkIdentifier 7 1 22 1 None);
                       (2, mkIdentifier 7 1 22 2 None);
                       (3, mkIdentifier 7 1 22 3 (Some 9));
                       (4, mkIdentifier 7 1 5 1 None)];
     agreements := ∅ |}.

(** Two new agreements in district 5 and one in district 22. *)
Definition first : LandUseAgreement :=
  mkAgreement None None (Some 7) (Some 1) (Some 5).

Definition second : LandUseAgreement :=
  mkAgreement None None (Some 7) (Some 1) (Some 5).


Definition store_first : AgreementStore :=
  {| identifiers := <[5 := mkIdentifier 7 1 5 2 None]> (identifiers store);
     agreements := ∅ |}.

Definition store_second : AgreementStore :=
  {| identifiers := <[6 := mkIdentifier 7 1 5 3 None]>
                      (identifiers store_first);
     agreements := ∅ |}.

Definition store_saved : AgreementStore :=
  {| identifiers := identifiers store_first;
     agreements := {[1 := mkAgreement (Some 1) (Some 5) (Some 7) (Some 1)
                            (Some 5)]} |}.

End SampleAgreements.

Module SampleNumbers.

Definition numbered : LandUseAgreementInvoice :=
  mkInvoice 1 0 None (Some 1000000) 0 OPEN 0 CHARGE None.

Definition unnumbered : LandUseAgreementInvoice :=
  mkInvoice 2 0 None None 0 OPEN 0 CHARGE None.

Definition store : Store :=
  {| invoices := <[1 := numbered]> (<[2 := unnumbered]> ∅);
     rows := ∅; payments := ∅;
     sequences := {["invoice_numbers" := 1000000]} |}.

(** A second invoice without number, and the store that holds it too. *)
Definition another : LandUseAgreementInvoice :=
  mkInvoice 3 0 None None 0 OPEN 0 CREDIT_NOTE None.

Definition store_two : Store :=
  {| invoices := <[3 := another]> (invoices store);
     rows := ∅; payments := ∅;
     sequences := sequences store |}.

End SampleNumbers.

Module SampleUndated.

(** Invoice 1 with one row whose sign date is missing. *)
Definition store : Store :=
  {| invoices := {[1 := Sample.charge]};
     rows := {[10 := mkRow 1 0 80000 250 (Some 5) None None]};
     payments := ∅; sequences := ∅ |}.

End SampleUndated.

Module SampleCursor.

(** Two columns named ID around a column NIMI, and a row that stops
    after its second cell. *)
Definition cursor : Cursor unit Z :=
  mkCursor [("ID", tt); ("NIMI", tt); ("ID", tt)] [[1; 2; 3]; [4; 5]].

Definition plain : Cursor unit Z :=
  mkCursor [("ID", tt); ("NIMI", tt)] [[1; 2]; [4; 5]].

End SampleCursor.

(** * Properties *)

(** ** Sums *)

Lemma sum_with_cons {A} (f : A → Z) x l :
  sum_with f (x :: l) = f x + sum_with f l.
Proof. reflexivity. Qed.

Lemma sum_with_Permutation {A} (f : A → Z) l1 l2 :
  l1 ≡ₚ l2 → sum_with f l1 = sum_with f l2.
Proof.
  induction 1 as [|x l1 l2 _ IH|x y l|l1 l2 l3 _ IH1 _ IH2].
  - reflexivity.
  - rewrite !sum_with_cons, IH. reflexivity.
  - rewrite !sum_with_cons. lia.
  - congruence.
Qed.

Lemma sum_with_ext {A} (f g : A → Z) l :
  (∀ x, x ∈ l → f x = g x) → sum_with f l = sum_with g l.
Proof.
  induction l as [|x l IH]; intros Hfg; [reflexivity|].
  rewrite !sum_with_cons, Hfg, IH; [reflexivity| |left].
  intros y Hy. apply Hfg. by right.
Qed.

(** [Sum] followed by the [if not ...] default is the plain sum. *)
Lemma or_Decimal0_aggregate_Sum {A} (f : A → Z) qs :
  or_Decimal0 (aggregate_Sum f qs) = sum_with f qs.
Proof.
  destruct qs as [|x qs]; [reflexivity|].
  unfold aggregate_Sum, or_Decimal0, Decimal_bool.
  destruct (Z.eqb_spec (sum_with f (x :: qs)) 0) as [->|]; reflexivity.
Qed.

Lemma tally_rows_sum qs total :
  tally_rows qs total = total + sum_with (λ kr, amount kr.2) qs.
Proof.
  unfold tally_rows. revert total.
  induction qs as [|kr qs IH]; intros total; cbn [fold_left].
  - unfold sum_with. simpl. lia.
  - rewrite IH, sum_with_cons. lia.
Qed.

Lemma tally_credit_invoices_sum st qs total :
  tally_credit_invoices st qs total
  = total + sum_with (λ kc, rows_total st kc.1) qs.
Proof.
  unfold tally_credit_invoices. revert total.
  induction qs as [|kc qs IH]; intros total; cbn [fold_left].
  - unfold sum_with. simpl. lia.
  - rewrite IH, sum_with_cons, tally_rows_sum. unfold rows_total. lia.
Qed.

Lemma total_credited_amount_credited_total st i :
  total_credited_amount st i = credited_total st i.
Proof.
  unfold total_credited_amount. rewrite tally_credit_invoices_sum.
  unfold credited_total. lia.
Qed.

(** ** Managers and saves *)

Lemma rows_all_save_invoice self st i :
  rows_all (save_invoice self st) i = rows_all st i.
Proof. reflexivity. Qed.

Lemma payments_all_save_invoice self st i :
  payments_all (save_invoice self st) i = payments_all st i.
Proof. reflexivity. Qed.

(** Replacing a stored record leaves the table the same up to the order
    of enumeration. *)
Lemma map_to_list_replace {V} (m : gmap Z V) k v v' :
  m !! k = Some v →
  map_to_list m ≡ₚ (k, v) :: map_to_list (delete k m)
  ∧ map_to_list (<[k := v']> m) ≡ₚ (k, v') :: map_to_list (delete k m).
Proof.
  intros Hk. split.
  - symmetry. by apply map_to_list_delete.
  - rewrite <- insert_delete_eq. apply map_to_list_insert, lookup_delete_eq.
Qed.

(** Saving an invoice that was loaded from the store, with its credit
    link and deletion mark untouched, does not change who credits whom. *)
Lemma credit_invoices_all_save_invoice st self self' i :
  invoices st !! pk self = Some self →
  pk self' = pk self →
  credited_invoice self' = credited_invoice self →
  deleted self' = deleted self →
  (credit_invoices_all (save_invoice self' st) i).*1
  ≡ₚ (credit_invoices_all st i).*1.
Proof.
  intros Hin Hpk Hc Hd. unfold credit_invoices_all, save_invoice. simpl.
  rewrite Hpk.
  destruct (map_to_list_replace (invoices st) (pk self) self self' Hin)
    as [-> ->].
  rewrite !filter_cons. simpl. rewrite Hc, Hd.
  case_decide; reflexivity.
Qed.

Lemma credited_total_save_invoice st self self' i :
  invoices st !! pk self = Some self →
  pk self' = pk self →
  credited_invoice self' = credited_invoice self →
  deleted self' = deleted self →
  credited_total (save_invoice self' st) i = credited_total st i.
Proof.
  intros Hin Hpk Hc Hd.
  pose proof (credit_invoices_all_save_invoice st self self' i Hin Hpk Hc Hd)
    as Hperm.
  unfold credited_total.
  assert (Hfst : ∀ (l : list (Z * LandUseAgreementInvoice)) (s : Store),
             sum_with (λ kc, rows_total s kc.1) l
             = sum_with (rows_total s) l.*1).
  { intros l s. induction l as [|x l IH]; [reflexivity|].
    rewrite fmap_cons, !sum_with_cons, IH. reflexivity. }
  rewrite !Hfst.
  rewrite (sum_with_Permutation _ _ _ Hperm).
  apply sum_with_ext. intros k _. reflexivity.
Qed.

Lemma NoDup_fst_filter {A B} (P : A * B → Prop) `{∀ x, Decision (P x)}
  (l : list (A * B)) :
  NoDup l.*1 → NoDup (filter P l).*1.
Proof.
  induction l as [|x l IH]; intros Hnd; [constructor|].
  rewrite fmap_cons in Hnd. apply NoDup_cons in Hnd as [Hx Hnd].
  rewrite filter_cons. case_decide; [|by apply IH].
  rewrite fmap_cons. apply NoDup_cons. split; [|by apply IH].
  intros Hin. apply Hx.
  apply list_elem_of_fmap in Hin as [y [-> Hy]].
  apply list_elem_of_filter in Hy as [_ Hy].
  apply list_elem_of_fmap. by exists y.
Qed.

Lemma rows_all_NoDup st i : NoDup (rows_all st i).*1.
Proof. apply NoDup_fst_filter, NoDup_fst_map_to_list. Qed.

Lemma elem_of_rows_all st i k r :
  (k, r) ∈ rows_all st i
  ↔ rows st !! k = Some r ∧ row_invoice r = i ∧ row_deleted r = None.
Proof.
  unfold rows_all. rewrite list_elem_of_filter, elem_of_map_to_list.
  simpl. tauto.
Qed.

Lemma with_amount_same r : with_amount (amount r) r = r.
Proof. by destruct r. Qed.

Lemma save_row_same k r st : rows st !! k = Some r → save_row k r st = st.
Proof.
  intros Hk. unfold save_row, set_rows. rewrite (insert_id _ _ _ Hk).
  by destruct st.
Qed.

Lemma save_invoice_twice self st :
  save_invoice self (save_invoice self st) = save_invoice self st.
Proof.
  unfold save_invoice, set_invoices. simpl. by rewrite insert_insert_eq.
Qed.

Lemma save_invoice_lookup self st :
  invoices (save_invoice self st) !! pk self = Some self.
Proof. unfold save_invoice. simpl. apply lookup_insert_eq. Qed.

(** [Decimal.compare] against -1 tests "less than". *)
Lemma Decimal_compare_lt a b : (Decimal_compare a b =? -1) = (a <? b).
Proof.
  unfold Decimal_compare. rewrite Z.ltb_compare.
  by destruct (a ?= b).
Qed.

(** The branches of the state decision, as propositions. *)
Lemma next_state_cases ty s billed outstanding credited :
  next_state ty s billed outstanding credited
  = if decide (credited ≠ 0 ∧ billed ≤ credited) then REFUNDED
    else if decide (ty = CHARGE ∧ outstanding = 0) then PAID
    else s.
Proof.
  unfold next_state. rewrite Decimal_compare_lt.
  destruct (Z.eqb_spec credited 0), (Z.ltb_spec credited billed),
    (Z.eqb_spec outstanding 0), ty; simpl;
    repeat case_decide; try reflexivity; try lia;
    naive_solver lia.
Qed.

Lemma next_state_again ty s billed outstanding credited :
  next_state ty (next_state ty s billed outstanding credited)
    billed outstanding credited
  = next_state ty s billed outstanding credited.
Proof. rewrite !next_state_cases. by repeat case_decide. Qed.

Section SettlementProperties.

Variable calc : option Z → option Z → Decimal → Decimal → option Decimal.

Lemma new_amount_with_amount a r :
  new_amount calc (with_amount a r) = new_amount calc r.
Proof. reflexivity. Qed.

(** The row loop writes the row table only. *)
Lemma update_row_amounts_frame qs st st' :
  update_row_amounts calc qs st = Some st' →
  invoices st' = invoices st ∧ payments st' = payments st
  ∧ sequences st' = sequences st.
Proof.
  revert st. induction qs as [|[k r] qs IH]; intros st Hrun; simpl in Hrun.
  - by inversion Hrun.
  - unfold update_amount in Hrun.
    destruct (new_amount calc r) as [a|]; simpl in Hrun; [|done].
    by apply IH in Hrun.
Qed.

(** Rows that were not fetched are not written. *)
Lemma update_row_amounts_other qs st st' k :
  update_row_amounts calc qs st = Some st' →
  k ∉ qs.*1 → rows st' !! k = rows st !! k.
Proof.
  revert st. induction qs as [|[k0 r0] qs IH]; intros st Hrun Hk;
    simpl in Hrun.
  - by inversion Hrun.
  - unfold update_amount in Hrun.
    destruct (new_amount calc r0) as [a|]; simpl in Hrun; [|done].
    rewrite fmap_cons in Hk. apply not_elem_of_cons in Hk as [Hne Hk].
    simpl in Hne.
    rewrite (IH _ Hrun Hk). simpl. by apply lookup_insert_ne.
Qed.

(** A fetched row ends up with the amount the helper gave for it. *)
Lemma update_row_amounts_fetched qs st st' k r :
  update_row_amounts calc qs st = Some st' →
  NoDup qs.*1 → (k, r) ∈ qs →
  ∃ a, new_amount calc r = Some a ∧ rows st' !! k = Some (with_amount a r).
Proof.
  revert st. induction qs as [|[k0 r0] qs IH]; intros st Hrun Hnd Hin;
    simpl in Hrun.
  - by apply not_elem_of_nil in Hin.
  - unfold update_amount in Hrun.
    destruct (new_amount calc r0) as [a|] eqn:Ha; simpl in Hrun; [|done].
    rewrite fmap_cons in Hnd. apply NoDup_cons in Hnd as [Hk0 Hnd].
    simpl in Hk0.
    apply elem_of_cons in Hin as [Heq|Hin].
    + inversion Heq; subst k0 r0. exists a. split; [done|].
      rewrite (update_row_amounts_other _ _ _ _ Hrun Hk0). simpl.
      apply lookup_insert_eq.
    + by apply (IH _ Hrun).
Qed.

(** The loop completes when the helper yields an amount for every
    fetched row. *)
Lemma update_row_amounts_total qs st :
  Forall (λ kr, is_Some (new_amount calc kr.2)) qs →
  is_Some (update_row_amounts calc qs st).
Proof.
  revert st. induction qs as [|[k r] qs IH]; intros st Hall; simpl.
  - by eexists.
  - apply Forall_cons in Hall as [[a Ha] Hall]. simpl in Ha.
    unfold update_amount. rewrite Ha. simpl. by apply IH.
Qed.

(** Rows whose amount already is what the helper gives are rewritten
    with the same content. *)
Lemma update_row_amounts_settled qs st :
  (∀ k r, (k, r) ∈ qs →
     rows st !! k = Some r ∧ new_amount calc r = Some (amount r)) →
  update_row_amounts calc qs st = Some st.
Proof.
  induction qs as [|[k r] qs IH]; intros Hall; simpl; [done|].
  destruct (Hall k r) as [Hk Ha]; [left|].
  unfold update_amount. rewrite Ha. simpl.
  rewrite with_amount_same, (save_row_same _ _ _ Hk).
  apply IH. intros k' r' Hin. apply Hall. by right.
Qed.

(** After the loop every row of the invoice carries the helper's
    amount. *)
Lemma update_row_amounts_rows_all st st1 i k r1 :
  update_row_amounts calc (rows_all st i) st = Some st1 →
  (k, r1) ∈ rows_all st1 i →
  new_amount calc r1 = Some (amount r1).
Proof.
  intros Hrun Hin. apply elem_of_rows_all in Hin as (Hk & Hi & Hd).
  destruct (decide (k ∈ (rows_all st i).*1)) as [Hfetched|Hother].
  - apply list_elem_of_fmap in Hfetched as [[k' r] [Heq Hin]].
    simpl in Heq; subst k'.
    destruct (update_row_amounts_fetched _ _ _ _ _ Hrun
                (rows_all_NoDup st i) Hin) as (a & Ha & Hk').
    rewrite Hk in Hk'. inversion Hk'; subst r1.
    by rewrite new_amount_with_amount.
  - exfalso. apply Hother.
    rewrite (update_row_amounts_other _ _ _ _ Hrun Hother) in Hk.
    apply list_elem_of_fmap. exists (k, r1). split; [done|].
    by apply elem_of_rows_all.
Qed.

(** [update_amounts] is the row loop followed by the specified
    settlement over the tables the loop leaves. *)
Lemma update_amounts_eq st self :
  update_amounts calc st self
  = st1 ← update_row_amounts calc (rows_all st (pk self)) st;
    Some (save_invoice (settled_invoice st1 self) st1,
          settled_invoice st1 self).
Proof.
  unfold update_amounts.
  destruct (update_row_amounts calc (rows_all st (pk self)) st)
    as [st1|]; simpl; [|done].
  rewrite !or_Decimal0_aggregate_Sum,
    total_credited_amount_credited_total, next_state_cases.
  reflexivity.
Qed.

Lemma update_amounts_Some st self st' self' :
  update_amounts calc st self = Some (st', self') →
  ∃ st1,
    update_row_amounts calc (rows_all st (pk self)) st = Some st1
    ∧ st' = save_invoice self' st1
    ∧ self' = settled_invoice st1 self.
Proof.
  rewrite update_amounts_eq. intros Hrun.
  destruct (update_row_amounts calc (rows_all st (pk self)) st)
    as [st1|]; simpl in Hrun; [|done].
  inversion Hrun. by exists st1.
Qed.

(** Settling a stored invoice and saving the result does not change
    the sums the settlement was computed from. *)
Lemma settled_invoice_saved st1 self :
  invoices st1 !! pk self = Some self →
  settled_invoice (save_invoice (settled_invoice st1 self) st1) self
  = settled_invoice st1 self.
Proof.
  intros Hin. unfold settled_invoice at 1 3.
  rewrite (credited_total_save_invoice st1 self _ (pk self) Hin); done.
Qed.

Lemma settled_invoice_again st1 self :
  invoices st1 !! pk self = Some self →
  settled_invoice (save_invoice (settled_invoice st1 self) st1)
    (settled_invoice st1 self)
  = settled_invoice st1 self.
Proof.
  intros Hin. unfold settled_invoice at 1.
  change (pk (settled_invoice st1 self)) with (pk self).
  change (type (settled_invoice st1 self)) with (type self).
  rewrite (credited_total_save_invoice st1 self _ (pk self) Hin) by done.
  change (rows_total (save_invoice (settled_invoice st1 self) st1) (pk self))
    with (rows_total st1 (pk self)).
  change (payments_total (save_invoice (settled_invoice st1 self) st1)
            (pk self)) with (payments_total st1 (pk self)).
  unfold settled_invoice.
  generalize (rows_total st1 (pk self)) (payments_total st1 (pk self))
    (credited_total st1 (pk self)).
  intros b p c. unfold with_amounts; simpl.
  repeat case_decide; reflexivity.
Qed.

(** C1. After a completed [update_amounts] on a stored invoice, the
    outstanding amount is the maximum of zero and the billed amount less
    the sum of the paid amounts of the invoice's payments (zero without
    payments) and less the sum of the row amounts of the invoices that
    credit it; it is never negative. *)
Theorem update_amounts_outstanding_amount st self st' self' :
  invoices st !! pk self = Some self →
  update_amounts calc st self = Some (st', self') →
  outstanding_amount self'
  = Z.max 0 (billed_amount self' - payments_total st' (pk self')
             - credited_total st' (pk self'))
  ∧ 0 ≤ outstanding_amount self'
  ∧ (payments_all st' (pk self') = [] → payments_total st' (pk self') = 0).
Proof.
  intros Hin Hrun.
  destruct (update_amounts_Some _ _ _ _ Hrun) as (st1 & Hrows & -> & Hself).
  destruct (update_row_amounts_frame _ _ _ Hrows) as (Hinv & _ & _).
  rewrite <- Hinv in Hin. subst self'.
  change (pk (settled_invoice st1 self)) with (pk self).
  rewrite (credited_total_save_invoice st1 self _ (pk self) Hin) by done.
  split; [reflexivity|]. split; [simpl; lia|].
  unfold payments_total. by intros ->.
Qed.

(** C2. A completed [update_amounts] decides the state in a fixed order:
    REFUNDED when the credited total is nonzero and at least the billed
    amount; otherwise PAID when the invoice is a CHARGE with nothing
    outstanding; otherwise the state is kept.  So an invoice that is
    fully paid and fully credited ends REFUNDED: the payments have no
    part in that decision. *)
Theorem update_amounts_state_priority st self st' self' :
  invoices st !! pk self = Some self →
  update_amounts calc st self = Some (st', self') →
  let billed := billed_amount self' in
  let credited := credited_total st' (pk self') in
  let refund := credited ≠ 0 ∧ billed ≤ credited in
  let settle := type self' = CHARGE ∧ outstanding_amount self' = 0 in
  (refund → state self' = REFUNDED)
  ∧ (¬ refund → settle → state self' = PAID)
  ∧ (¬ refund → ¬ settle → state self' = state self)
  ∧ (billed ≤ payments_total st' (pk self') → refund →
     state self' = REFUNDED).
Proof.
  intros Hin Hrun.
  destruct (update_amounts_Some _ _ _ _ Hrun) as (st1 & Hrows & -> & Hself).
  destruct (update_row_amounts_frame _ _ _ Hrows) as (Hinv & _ & _).
  rewrite <- Hinv in Hin. subst self'.
  change (pk (settled_invoice st1 self)) with (pk self).
  rewrite (credited_total_save_invoice st1 self _ (pk self) Hin) by done.
  unfold settled_invoice; simpl.
  repeat case_decide; intuition congruence.
Qed.

(** C3, as the code has it. For an invoice without rows, payments and
    credit invoices [update_amounts] completes, sets the billed, total
    and outstanding amounts to zero, and leaves the state unchanged
    unless the invoice is a CHARGE, which becomes PAID. *)
Theorem update_amounts_bare st self :
  rows_all st (pk self) = [] →
  payments_all st (pk self) = [] →
  credit_invoices_all st (pk self) = [] →
  ∃ self',
    update_amounts calc st self = Some (save_invoice self' st, self')
    ∧ billed_amount self' = 0
    ∧ total_amount self' = 0
    ∧ outstanding_amount self' = 0
    ∧ state self' = (if decide (type self = CHARGE) then PAID else state self).
Proof.
  intros Hr Hp Hc. exists (settled_invoice st self).
  rewrite update_amounts_eq, Hr. simpl. split; [reflexivity|].
  unfold settled_invoice, rows_total, payments_total, credited_total.
  rewrite Hr, Hp, Hc. simpl.
  repeat split. repeat case_decide; intuition (congruence || lia).
Qed.

(** C5. After a completed [update_amounts] the billed amount equals the
    total amount, and both equal the sum of the amounts of the invoice's
    rows, which is zero when it has none; this is the record the store
    holds. *)
Theorem update_amounts_billed_amount st self st' self' :
  update_amounts calc st self = Some (st', self') →
  billed_amount self' = total_amount self'
  ∧ billed_amount self' = rows_total st' (pk self')
  ∧ (rows_all st' (pk self') = [] → billed_amount self' = 0)
  ∧ invoices st' !! pk self' = Some self'.
Proof.
  intros Hrun.
  destruct (update_amounts_Some _ _ _ _ Hrun) as (st1 & Hrows & -> & Hself).
  split; [by rewrite Hself|].
  assert (Hb : billed_amount self'
               = rows_total (save_invoice self' st1) (pk self'))
    by (by rewrite Hself at 1 3).
  split; [exact Hb|]. split; [|apply save_invoice_lookup].
  intros Hnil. rewrite Hb. unfold rows_total. by rewrite Hnil.
Qed.

(** C6. [update_amounts] is idempotent: a second call right after a
    completed call on a stored invoice completes too and returns the same
    store and the same invoice, hence the same billed, total and
    outstanding amounts and the same state. *)
Theorem update_amounts_idempotent st self st' self' :
  invoices st !! pk self = Some self →
  update_amounts calc st self = Some (st', self') →
  update_amounts calc st' self' = Some (st', self').
Proof.
  intros Hin Hrun.
  destruct (update_amounts_Some _ _ _ _ Hrun) as (st1 & Hrows & -> & Hself).
  destruct (update_row_amounts_frame _ _ _ Hrows) as (Hinv & _ & _).
  rewrite <- Hinv in Hin.
  assert (Hpk : pk self' = pk self) by (by rewrite Hself).
  rewrite update_amounts_eq, Hpk.
  rewrite rows_all_save_invoice.
  rewrite update_row_amounts_settled; simpl.
  - rewrite Hself, settled_invoice_again, save_invoice_twice; done.
  - intros k r Hkr. split.
    + by apply elem_of_rows_all in Hkr as (Hk & _).
    + by apply (update_row_amounts_rows_all st st1 (pk self) k).
Qed.

(** C7. [update_amounts] never moves an invoice to OPEN: the state after
    a completed call is REFUNDED, PAID or the state before the call, so
    it is OPEN only if it was OPEN before. *)
Theorem update_amounts_never_reopens st self st' self' :
  update_amounts calc st self = Some (st', self') →
  (state self' = REFUNDED ∨ state self' = PAID ∨ state self' = state self)
  ∧ (state self' = OPEN → state self = OPEN).
Proof.
  intros Hrun.
  destruct (update_amounts_Some _ _ _ _ Hrun) as (st1 & _ & _ & ->).
  unfold settled_invoice; simpl.
  repeat case_decide; split; (auto || congruence).
Qed.

(** C8, as the code has it. [update_amounts] validates nothing, so
    negative amounts are not rejected.  For an invoice that was loaded
    from the store and is not soft-deleted it completes and saves the
    invoice whenever the helper yields an amount for each of the
    invoice's rows and the amounts it writes fit their columns of ten
    digits, whatever the sign of the amounts of the rows, the payments
    and the credit rows. *)
Theorem update_amounts_accepts st self :
  invoices st !! pk self = Some self →
  deleted self = None →
  (∀ k r, (k, r) ∈ rows_all st (pk self) →
     ∃ a, new_amount calc r = Some a ∧ fits_max_digits_10 a) →
  (∀ st' self', update_amounts calc st self = Some (st', self') →
     fits_max_digits_10 (billed_amount self')
     ∧ fits_max_digits_10 (outstanding_amount self')) →
  ∃ st' self', update_amounts calc st self = Some (st', self')
               ∧ invoices st' !! pk self = Some self'.
Proof.
  intros _ _ Hall _.
  destruct (update_row_amounts_total (rows_all st (pk self)) st)
    as [st1 Hrows].
  { apply Forall_forall. intros [k r] Hin.
    destruct (Hall k r Hin) as (a & Ha & _). simpl. by rewrite Ha. }
  exists (save_invoice (settled_invoice st1 self) st1),
    (settled_invoice st1 self).
  rewrite update_amounts_eq, Hrows. simpl. split; [reflexivity|].
  apply lookup_insert_eq.
Qed.

End SettlementProperties.

(** ** The credit tally *)

(** C4, as the code has it. The credited total of [update_amounts] is the
    sum, over the invoices that credit this one and are not soft-deleted,
    of the amounts of their rows that are not soft-deleted.  The state of
    a credit note plays no part: giving a stored invoice another state
    leaves the total as it is. *)
Theorem total_credited_amount_live_rows st i c s :
  invoices st !! pk c = Some c →
  total_credited_amount st i
  = sum_with
      (λ kc, sum_with (λ kr, amount kr.2)
               (filter (λ kr, row_invoice kr.2 = kc.1 ∧ row_deleted kr.2 = None)
                       (map_to_list (rows st))))
      (filter (λ kc, credited_invoice kc.2 = Some i ∧ deleted kc.2 = None)
              (map_to_list (invoices st)))
  ∧ total_credited_amount (save_invoice (with_state s c) st) i
    = total_credited_amount st i.
Proof.
  intros Hin. split.
  - apply total_credited_amount_credited_total.
  - rewrite !total_credited_amount_credited_total.
    by apply (credited_total_save_invoice st c).
Qed.

(** ** The sequence allocator *)

Section Allocator.

Variable name : string.

(** Once the counter holds [last], every later value for the name is
    above it. *)
Lemma run_calls_above calls seqs last i c v :
  seqs !! name = Some last →
  run_calls calls seqs !! i = Some (c, v) →
  sequence_name c = name →
  last < v.
Proof.
  revert seqs last i.
  induction calls as [|c0 calls IH]; intros seqs last i Hlast Hi Hc;
    [done|].
  destruct i as [|i]; simpl in Hi.
  - inversion Hi; subst c0 v. rewrite Hc, Hlast. lia.
  - destruct (decide (sequence_name c0 = name)) as [Heq|Hne].
    + rewrite Heq, Hlast in Hi.
      pose proof (IH _ (last + 1) i (lookup_insert_eq _ _ _) Hi Hc). lia.
    + apply (IH _ last i) in Hi; [done| |done].
      by rewrite lookup_insert_ne.
Qed.

(** Values for one name grow strictly along the commit order. *)
Lemma run_calls_increasing calls seqs (i j : nat) c1 v1 c2 v2 :
  (i < j)%nat →
  run_calls calls seqs !! i = Some (c1, v1) →
  run_calls calls seqs !! j = Some (c2, v2) →
  sequence_name c1 = name → sequence_name c2 = name →
  v1 < v2.
Proof.
  revert seqs i j.
  induction calls as [|c0 calls IH]; intros seqs i j Hij Hi Hj Hc1 Hc2;
    [done|].
  destruct j as [|j]; [lia|]. destruct i as [|i]; simpl in Hi, Hj.
  - inversion Hi; subst c0. rewrite Hc1 in Hj |- *.
    exact (run_calls_above _ _ _ j c2 v2 (lookup_insert_eq _ _ _) Hj Hc2).
  - eapply (IH _ i j); [lia|exact Hi|exact Hj|done|done].
Qed.

(** On a fresh counter no value is below the initial value of the first
    call. *)
Lemma run_calls_floor calls seqs i0 i c v :
  seqs !! name = None →
  first_initial_value name calls = Some i0 →
  run_calls calls seqs !! i = Some (c, v) →
  sequence_name c = name →
  i0 ≤ v.
Proof.
  revert seqs i.
  induction calls as [|c0 calls IH]; intros seqs i Hnone Hfirst Hi Hc;
    [done|].
  unfold first_initial_value in Hfirst. rewrite filter_cons in Hfirst.
  destruct (decide (sequence_name c0 = name)) as [Heq|Hne].
  - simpl in Hfirst. inversion Hfirst; subst i0.
    destruct i as [|i]; simpl in Hi.
    + inversion Hi; subst c0 v. rewrite Hc, Hnone. lia.
    + rewrite Heq, Hnone in Hi.
      pose proof (run_calls_above _ _ (initial_value c0) i c v
                    (lookup_insert_eq _ _ _) Hi Hc). lia.
  - destruct i as [|i]; simpl in Hi.
    + inversion Hi; subst c0 v. done.
    + eapply (IH _ i); [|exact Hfirst|exact Hi|done].
      by rewrite lookup_insert_ne.
Qed.

(** C9. Calls of the allocator for one name, by any callers and
    interleaved in any order, receive strictly increasing values along
    the commit order; so no two calls, and no two callers, receive the
    same value; and on a counter that starts fresh every value is at
    least the initial value. *)
Theorem get_next_value_strictly_increasing calls seqs i0
  (i j : nat) c1 v1 c2 v2 :
  seqs !! name = None →
  first_initial_value name calls = Some i0 →
  run_calls calls seqs !! i = Some (c1, v1) →
  run_calls calls seqs !! j = Some (c2, v2) →
  sequence_name c1 = name → sequence_name c2 = name →
  ((i < j)%nat → v1 < v2) ∧ (i ≠ j → v1 ≠ v2) ∧ i0 ≤ v1 ∧ i0 ≤ v2.
Proof.
  intros Hnone Hfirst Hi Hj Hc1 Hc2.
  assert (Hlt : ∀ a b ca va cb vb, (a < b)%nat →
            run_calls calls seqs !! a = Some (ca, va) →
            run_calls calls seqs !! b = Some (cb, vb) →
            sequence_name ca = name → sequence_name cb = name → va < vb)
    by (intros; by eapply run_calls_increasing).
  split; [by eauto|]. split.
  - intros Hne.
    destruct (Nat.lt_total i j) as [Hij|[Hij|Hij]]; [|done|].
    + pose proof (Hlt _ _ _ _ _ _ Hij Hi Hj Hc1 Hc2). lia.
    + pose proof (Hlt _ _ _ _ _ _ Hij Hj Hi Hc2 Hc1). lia.
  - split; by eapply run_calls_floor.
Qed.

End Allocator.

(** ** Invoice numbers *)

Lemma generate_number_numbered st self n :
  number self = Some n → n ≠ 0 →
  generate_number st self = (st, self, Some n).
Proof.
  intros Hn Hne. unfold generate_number. rewrite Hn. simpl.
  destruct (Z.eqb_spec n 0); [done|]. reflexivity.
Qed.

Lemma generate_number_unnumbered st self :
  number_bool (number self) = false →
  generate_number st self
  = let r := get_next_value "invoice_numbers" 1000000 (sequences st) in
    (save_invoice (with_number r.1 self) (set_sequences r.2 st),
     with_number r.1 self, Some r.1).
Proof. intros Hn. unfold generate_number. by rewrite Hn. Qed.

(** C10, as the code has it. An invoice whose number is set and not zero
    gets that number back from [generate_number] with the store, and so
    the sequence, untouched.  For every invoice that was loaded from the
    store and is not soft-deleted, when every stored number was handed
    out by the sequence, the counter of invoice numbers is not negative
    and its next value fits the column, a second call returns the number
    the first call returned and changes nothing, and the two calls
    together take at most one value from the sequence. *)
Theorem generate_number_idempotent st self :
  invoices st !! pk self = Some self →
  deleted self = None →
  numbers_issued st →
  invoice_numbers_counter_ok st →
  invoice_numbers_fit 1 st →
  let r1 := generate_number st self in
  let r2 := generate_number r1.1.1 r1.1.2 in
  (∀ n, number self = Some n → n ≠ 0 → r1 = (st, self, Some n))
  ∧ is_Some r1.2
  ∧ r2 = r1
  ∧ (sequences r2.1.1 = sequences st
     ∨ sequences r2.1.1
       = (get_next_value "invoice_numbers" 1000000 (sequences st)).2).
Proof.
  intros _ _ _ Hseq _ r1 r2.
  split; [intros n Hn Hne; by apply generate_number_numbered|].
  destruct (number_bool (number self)) eqn:Hb.
  - destruct (number self) as [n|] eqn:Hn; [|done]. simpl in Hb.
    assert (Hne : n ≠ 0) by (by destruct (Z.eqb_spec n 0)).
    assert (Hr1 : r1 = (st, self, Some n))
      by (by apply generate_number_numbered).
    subst r2. rewrite Hr1. simpl.
    rewrite (generate_number_numbered st self n Hn Hne).
    split; [by eexists|]. split; [done|]. by left.
  - pose proof (generate_number_unnumbered st self Hb) as Hr1.
    fold r1 in Hr1. subst r2. rewrite Hr1. simpl.
    set (v := match sequences st !! "invoice_numbers" with
              | Some last => last + 1
              | None => 1000000
              end).
    assert (Hv : v ≠ 0).
    { subst v. unfold invoice_numbers_counter_ok in Hseq.
      destruct (sequences st !! "invoice_numbers") as [last|]; [lia|done]. }
    rewrite (generate_number_numbered _ (with_number v self) v eq_refl Hv).
    split; [by eexists|]. split; [done|]. by right.
Qed.

(** ** The sample store *)

Lemma sample_charge_stored :
  invoices Sample.store !! pk Sample.charge = Some Sample.charge.
Proof. reflexivity. Defined.

Lemma sample_update_amounts :
  update_amounts Sample.increase Sample.store Sample.charge
  = Some (Sample.store_settled, Sample.charge_settled).
Proof. vm_compute. reflexivity. Defined.

Lemma update_amounts_outstanding_amount_sample :
  invoices Sample.store !! pk Sample.charge = Some Sample.charge
  ∧ update_amounts Sample.increase Sample.store Sample.charge
    = Some (Sample.store_settled, Sample.charge_settled)
  ∧ outstanding_amount Sample.charge_settled
    = Z.max 0 (billed_amount Sample.charge_settled
               - payments_total Sample.store_settled 1
               - credited_total Sample.store_settled 1)
  ∧ 0 ≤ outstanding_amount Sample.charge_settled.
Proof.
  split; [exact sample_charge_stored|]. split; [exact sample_update_amounts|].
  destruct (update_amounts_outstanding_amount Sample.increase _ _ _ _
              sample_charge_stored sample_update_amounts) as (Ho & Hpos & _).
  split; [exact Ho|exact Hpos].
Defined.

Lemma update_amounts_state_priority_sample :
  invoices Sample.store !! pk Sample.charge = Some Sample.charge
  ∧ update_amounts Sample.increase Sample.store Sample.charge
    = Some (Sample.store_settled, Sample.charge_settled)
  ∧ state Sample.charge_settled = state Sample.charge.
Proof.
  split; [exact sample_charge_stored|]. split; [exact sample_update_amounts|].
  destruct (update_amounts_state_priority Sample.increase _ _ _ _
              sample_charge_stored sample_update_amounts)
    as (_ & _ & Hkeep & _).
  apply Hkeep; vm_compute; intros [H1 H2];
    [apply H2; reflexivity|discriminate H2].
Defined.

Lemma update_amounts_bare_sample :
  rows_all Sample.store (pk Sample.bare) = []
  ∧ payments_all Sample.store (pk Sample.bare) = []
  ∧ credit_invoices_all Sample.store (pk Sample.bare) = []
  ∧ ∃ self',
      update_amounts Sample.increase Sample.store Sample.bare
      = Some (save_invoice self' Sample.store, self')
      ∧ billed_amount self' = 0
      ∧ total_amount self' = 0
      ∧ outstanding_amount self' = 0
      ∧ state self'
        = (if decide (type Sample.bare = CHARGE) then PAID
           else state Sample.bare).
Proof.
  assert (Hr : rows_all Sample.store (pk Sample.bare) = [])
    by (vm_compute; reflexivity).
  assert (Hp : payments_all Sample.store (pk Sample.bare) = [])
    by (vm_compute; reflexivity).
  assert (Hc : credit_invoices_all Sample.store (pk Sample.bare) = [])
    by (vm_compute; reflexivity).
  split; [exact Hr|]. split; [exact Hp|]. split; [exact Hc|].
  exact (update_amounts_bare Sample.increase Sample.store Sample.bare Hr Hp Hc).
Defined.

(** C3 as stated fails: a CHARGE invoice in state OPEN without rows,
    payments and credit invoices comes out PAID. *)
Lemma bare_charge_becomes_PAID :
  (rows_all Sample.store (pk Sample.bare) = []
   ∧ payments_all Sample.store (pk Sample.bare) = []
   ∧ credit_invoices_all Sample.store (pk Sample.bare) = [])
  ∧ state Sample.bare = OPEN
  ∧ (state ∘ snd) <$> update_amounts Sample.increase Sample.store Sample.bare
    = Some PAID
  ∧ ¬ (∀ st' self',
         update_amounts Sample.increase Sample.store Sample.bare
         = Some (st', self') →
         billed_amount self' = 0 ∧ outstanding_amount self' = 0
         ∧ state self' = state Sample.bare).
Proof.
  split; [repeat split; vm_compute; reflexivity|].
  split; [reflexivity|]. split; [vm_compute; reflexivity|].
  intros Hclaim.
  destruct (update_amounts Sample.increase Sample.store Sample.bare)
    as [[st' self']|] eqn:Hrun; [|vm_compute in Hrun; discriminate].
  destruct (Hclaim st' self' eq_refl) as (_ & _ & Hstate).
  vm_compute in Hrun. inversion Hrun; subst self'. discriminate Hstate.
Qed.

Lemma total_credited_amount_live_rows_sample :
  invoices Sample.store !! pk Sample.credit_note = Some Sample.credit_note
  ∧ total_credited_amount Sample.store 1 = 30000
  ∧ total_credited_amount Sample.store_credit_note_paid 1 = 30000.
Proof.
  assert (Hin : invoices Sample.store !! pk Sample.credit_note
                = Some Sample.credit_note) by reflexivity.
  split; [exact Hin|].
  destruct (total_credited_amount_live_rows Sample.store 1
              Sample.credit_note PAID Hin) as [Hsum Hstate].
  split; [rewrite Hsum; vm_compute; reflexivity|].
  unfold Sample.store_credit_note_paid. rewrite Hstate, Hsum.
  vm_compute; reflexivity.
Defined.

(** C4 as stated fails: the soft-deleted row of 500.00 on credit note 2
    is not part of the credited total of invoice 1, which is 300.00 and
    not 800.00; 420.00 of the 820.00 billed stay outstanding. *)
Lemma deleted_credit_row_not_counted :
  total_credited_amount Sample.store 1 = 30000
  ∧ credited_total_in_full Sample.store 1 = 80000
  ∧ total_credited_amount Sample.store 1 ≠ credited_total_in_full Sample.store 1
  ∧ (outstanding_amount ∘ snd)
      <$> update_amounts Sample.increase Sample.store Sample.charge
    = Some 42000.
Proof.
  split; [vm_compute; reflexivity|]. split; [vm_compute; reflexivity|].
  split; [vm_compute; discriminate|]. vm_compute; reflexivity.
Qed.

Lemma update_amounts_billed_amount_sample :
  update_amounts Sample.increase Sample.store Sample.charge
  = Some (Sample.store_settled, Sample.charge_settled)
  ∧ billed_amount Sample.charge_settled = total_amount Sample.charge_settled
  ∧ billed_amount Sample.charge_settled = rows_total Sample.store_settled 1.
Proof.
  split; [exact sample_update_amounts|].
  destruct (update_amounts_billed_amount Sample.increase _ _ _ _
              sample_update_amounts) as (Ht & Hb & _).
  split; [exact Ht|exact Hb].
Defined.

Lemma update_amounts_idempotent_sample :
  invoices Sample.store !! pk Sample.charge = Some Sample.charge
  ∧ update_amounts Sample.increase Sample.store Sample.charge
    = Some (Sample.store_settled, Sample.charge_settled)
  ∧ update_amounts Sample.increase Sample.store_settled Sample.charge_settled
    = Some (Sample.store_settled, Sample.charge_settled).
Proof.
  split; [exact sample_charge_stored|]. split; [exact sample_update_amounts|].
  exact (update_amounts_idempotent Sample.increase _ _ _ _
           sample_charge_stored sample_update_amounts).
Defined.

Lemma update_amounts_never_reopens_sample :
  update_amounts Sample.increase Sample.store Sample.charge
  = Some (Sample.store_settled, Sample.charge_settled)
  ∧ (state Sample.charge_settled = REFUNDED
     ∨ state Sample.charge_settled = PAID
     ∨ state Sample.charge_settled = state Sample.charge).
Proof.
  split; [exact sample_update_amounts|].
  exact (proj1 (update_amounts_never_reopens Sample.increase _ _ _ _
                  sample_update_amounts)).
Defined.

Lemma sample_negative_rows k r :
  (k, r) ∈ rows_all Sample.store_negative (pk Sample.charge) →
  ∃ a, new_amount Sample.increase r = Some a ∧ fits_max_digits_10 a.
Proof.
  intros Hin.
  assert (Hrows : rows_all Sample.store_negative (pk Sample.charge)
                  = [(10, mkRow 1 0 80000 250 (Some 5) (Some 3) None)])
    by (vm_compute; reflexivity).
  rewrite Hrows in Hin. apply list_elem_of_singleton in Hin.
  inversion Hin; subst k r. exists 82000.
  split; [reflexivity|]. unfold fits_max_digits_10. simpl. lia.
Defined.

Lemma sample_negative_fits st' self' :
  update_amounts Sample.increase Sample.store_negative Sample.charge
  = Some (st', self') →
  fits_max_digits_10 (billed_amount self')
  ∧ fits_max_digits_10 (outstanding_amount self').
Proof.
  intros Hrun.
  assert (Hself : snd <$> update_amounts Sample.increase
                            Sample.store_negative Sample.charge
                  = Some Sample.charge_settled_negative)
    by (vm_compute; reflexivity).
  rewrite Hrun in Hself. simpl in Hself. inversion Hself; subst self'.
  unfold fits_max_digits_10. simpl. lia.
Defined.

Lemma update_amounts_accepts_sample :
  invoices Sample.store_negative !! pk Sample.charge = Some Sample.charge
  ∧ deleted Sample.charge = None
  ∧ (∀ k r, (k, r) ∈ rows_all Sample.store_negative (pk Sample.charge) →
       ∃ a, new_amount Sample.increase r = Some a ∧ fits_max_digits_10 a)
  ∧ (∀ st' self',
       update_amounts Sample.increase Sample.store_negative Sample.charge
       = Some (st', self') →
       fits_max_digits_10 (billed_amount self')
       ∧ fits_max_digits_10 (outstanding_amount self'))
  ∧ negative_amount Sample.store_negative (pk Sample.charge)
  ∧ ∃ st' self',
      update_amounts Sample.increase Sample.store_negative Sample.charge
      = Some (st', self')
      ∧ invoices st' !! pk Sample.charge = Some self'.
Proof.
  assert (Hstored : invoices Sample.store_negative !! pk Sample.charge
                    = Some Sample.charge) by (vm_compute; reflexivity).
  split; [exact Hstored|]. split; [reflexivity|].
  split; [exact sample_negative_rows|].
  split; [exact sample_negative_fits|].
  split.
  - right. exists 21, (mkPayment 1 (-250) None).
    repeat split; reflexivity.
  - exact (update_amounts_accepts Sample.increase Sample.store_negative
             Sample.charge Hstored eq_refl sample_negative_rows
             sample_negative_fits).
Defined.

(** C8 as stated fails: with a payment of -2.50 on invoice 1,
    [update_amounts] is not rejected; it completes and saves the invoice
    with 422.50 outstanding. *)
Lemma negative_payment_is_settled :
  negative_amount Sample.store_negative (pk Sample.charge)
  ∧ update_amounts Sample.increase Sample.store_negative Sample.charge ≠ None
  ∧ ∃ st',
      update_amounts Sample.increase Sample.store_negative Sample.charge
      = Some (st', Sample.charge_settled_negative)
      ∧ invoices st' !! 1 = Some Sample.charge_settled_negative
      ∧ invoices Sample.store_negative !! 1 = Some Sample.charge.
Proof.
  split.
  { right. exists 21, (mkPayment 1 (-250) None).
    repeat split; reflexivity. }
  split; [vm_compute; discriminate|].
  eexists. split; [vm_compute; reflexivity|].
  split; vm_compute; reflexivity.
Qed.

Lemma get_next_value_strictly_increasing_sample :
  (∅ : gmap string Z) !! "invoice_numbers" = None
  ∧ first_initial_value "invoice_numbers" Sample.calls = Some 1000000
  ∧ run_calls Sample.calls ∅ !! 0%nat
    = Some (mkCall 0 "invoice_numbers" 1000000, 1000000)
  ∧ run_calls Sample.calls ∅ !! 3%nat
    = Some (mkCall 0 "invoice_numbers" 7, 1000002)
  ∧ 1000000 < 1000002.
Proof.
  assert (H0 : (∅ : gmap string Z) !! "invoice_numbers" = None)
    by reflexivity.
  assert (Hf : first_initial_value "invoice_numbers" Sample.calls
               = Some 1000000) by reflexivity.
  assert (Hi : run_calls Sample.calls ∅ !! 0%nat
               = Some (mkCall 0 "invoice_numbers" 1000000, 1000000))
    by (vm_compute; reflexivity).
  assert (Hj : run_calls Sample.calls ∅ !! 3%nat
               = Some (mkCall 0 "invoice_numbers" 7, 1000002))
    by (vm_compute; reflexivity).
  split; [exact H0|]. split; [exact Hf|]. split; [exact Hi|].
  split; [exact Hj|].
  apply (get_next_value_strictly_increasing "invoice_numbers" Sample.calls ∅
           1000000 0 3 _ _ _ _ H0 Hf Hi Hj eq_refl eq_refl).
  lia.
Defined.

Lemma sample_numbers_issued : numbers_issued SampleNumbers.store.
Proof.
  intros j inv n Hj Hn. exists 1000000. split; [reflexivity|].
  unfold SampleNumbers.store in Hj. simpl in Hj.
  destruct (decide (1 = j)) as [<-|H1].
  - rewrite lookup_insert_eq in Hj. inversion Hj; subst inv.
    inversion Hn. lia.
  - rewrite lookup_insert_ne in Hj by done.
    destruct (decide (2 = j)) as [<-|H2].
    + rewrite lookup_insert_eq in Hj. inversion Hj; subst inv.
      discriminate Hn.
    + rewrite lookup_insert_ne, lookup_empty in Hj by done.
      discriminate Hj.
Defined.

Lemma sample_numbers_fit n :
  n ≤ 2146483647 → invoice_numbers_fit n SampleNumbers.store.
Proof.
  intros Hn. unfold invoice_numbers_fit.
  assert (Hlast : sequences SampleNumbers.store !! "invoice_numbers"
                  = Some 1000000) by (vm_compute; reflexivity).
  rewrite Hlast. lia.
Defined.

Lemma generate_number_idempotent_sample :
  invoices SampleNumbers.store !! pk SampleNumbers.unnumbered
  = Some SampleNumbers.unnumbered
  ∧ deleted SampleNumbers.unnumbered = None
  ∧ numbers_issued SampleNumbers.store
  ∧ invoice_numbers_counter_ok SampleNumbers.store
  ∧ invoice_numbers_fit 1 SampleNumbers.store
  ∧ (generate_number SampleNumbers.store SampleNumbers.unnumbered).2
    = Some 1000001
  ∧ generate_number
      (generate_number SampleNumbers.store SampleNumbers.unnumbered).1.1
      (generate_number SampleNumbers.store SampleNumbers.unnumbered).1.2
    = generate_number SampleNumbers.store SampleNumbers.unnumbered.
Proof.
  assert (Hstored : invoices SampleNumbers.store
                    !! pk SampleNumbers.unnumbered
                    = Some SampleNumbers.unnumbered)
    by (vm_compute; reflexivity).
  assert (Hok : invoice_numbers_counter_ok SampleNumbers.store).
  { unfold invoice_numbers_counter_ok.
    assert (Hlast : sequences SampleNumbers.store !! "invoice_numbers"
                    = Some 1000000) by (vm_compute; reflexivity).
    rewrite Hlast. lia. }
  assert (Hfit : invoice_numbers_fit 1 SampleNumbers.store)
    by (apply sample_numbers_fit; lia).
  split; [exact Hstored|]. split; [reflexivity|].
  split; [exact sample_numbers_issued|].
  split; [exact Hok|]. split; [exact Hfit|].
  split; [vm_compute; reflexivity|].
  exact (proj1 (proj2 (proj2
           (generate_number_idempotent SampleNumbers.store
              SampleNumbers.unnumbered Hstored eq_refl
              sample_numbers_issued Hok Hfit)))).
Defined.

(** C10 as stated fails: an invoice whose number is 0 has a number, yet
    [generate_number] does not return it; it takes a value from the
    sequence and returns that. *)
Lemma number_zero_is_replaced :
  number Sample.bare = Some 0
  ∧ (generate_number Sample.store Sample.bare).2 = Some 1000000
  ∧ sequences Sample.store !! "invoice_numbers" = None
  ∧ sequences (generate_number Sample.store Sample.bare).1.1
    !! "invoice_numbers" = Some 1000000
  ∧ ¬ ((generate_number Sample.store Sample.bare).2 = number Sample.bare
       ∧ sequences (generate_number Sample.store Sample.bare).1.1
         = sequences Sample.store).
Proof.
  split; [reflexivity|]. split; [vm_compute; reflexivity|].
  split; [reflexivity|]. split; [vm_compute; reflexivity|].
  intros [Hn _]. vm_compute in Hn. discriminate Hn.
Qed.

(** * Further properties of the settlement and the numbering *)

Lemma elem_of_fst_rows_all st i k :
  k ∈ (rows_all st i).*1 ↔ ∃ r, (k, r) ∈ rows_all st i.
Proof.
  rewrite list_elem_of_fmap. split.
  - intros [[k' r] [-> Hin]]. by exists r.
  - intros [r Hin]. by exists (k, r).
Qed.

Lemma sum_with_fmap {A B} (f : B → Z) (g : A → B) l :
  sum_with f (g <$> l) = sum_with (λ x, f (g x)) l.
Proof.
  induction l as [|x l IH]; [reflexivity|].
  rewrite fmap_cons, !sum_with_cons, IH. reflexivity.
Qed.

Section SettlementFurther.

Variable calc : option Z → option Z → Decimal → Decimal → option Decimal.

Lemma update_row_amounts_elem_of st st1 i k r1 :
  update_row_amounts calc (rows_all st i) st = Some st1 →
  (k, r1) ∈ rows_all st1 i ↔ (k, r1) ∈ recalculated calc <$> rows_all st i.
Proof.
  intros Hrun. rewrite list_elem_of_fmap. split.
  - intros Hin. apply elem_of_rows_all in Hin as (Hk & Hi & Hd).
    destruct (decide (k ∈ (rows_all st i).*1)) as [Hfetched|Hother].
    + apply elem_of_fst_rows_all in Hfetched as [r Hin].
      destruct (update_row_amounts_fetched _ _ _ _ _ _ Hrun
                  (rows_all_NoDup st i) Hin) as (a & Ha & Hk').
      exists (k, r). split; [|done].
      unfold recalculated. simpl. rewrite Ha. simpl. congruence.
    + exfalso. apply Hother.
      rewrite (update_row_amounts_other _ _ _ _ _ Hrun Hother) in Hk.
      apply elem_of_fst_rows_all. exists r1. by apply elem_of_rows_all.
  - intros [[k' r] [Heq Hin]]. unfold recalculated in Heq. simpl in Heq.
    inversion Heq; subst k' r1.
    destruct (update_row_amounts_fetched _ _ _ _ _ _ Hrun
                (rows_all_NoDup st i) Hin) as (a & Ha & Hk').
    rewrite Ha. simpl.
    apply elem_of_rows_all in Hin as (_ & Hi & Hd).
    by apply elem_of_rows_all.
Qed.

Lemma update_row_amounts_Permutation st st1 i :
  update_row_amounts calc (rows_all st i) st = Some st1 →
  rows_all st1 i ≡ₚ recalculated calc <$> rows_all st i.
Proof.
  intros Hrun. apply NoDup_Permutation.
  - apply (NoDup_fmap_1 fst), rows_all_NoDup.
  - apply (NoDup_fmap_1 fst). rewrite <- list_fmap_compose.
    apply rows_all_NoDup.
  - intros [k r1]. by apply update_row_amounts_elem_of.
Qed.

(** X1. After a completed [update_amounts] every row of the invoice holds
    the amount the helper computes from its dates, percentage and
    compensation, with its other columns as they were, and the billed
    amount is the sum of these amounts over the rows. *)
Theorem update_amounts_row_amounts st self st' self' :
  update_amounts calc st self = Some (st', self') →
  (∀ k r, (k, r) ∈ rows_all st (pk self) →
     ∃ a, new_amount calc r = Some a ∧ rows st' !! k = Some (with_amount a r))
  ∧ billed_amount self'
    = sum_with (λ kr, default 0 (new_amount calc kr.2)) (rows_all st (pk self)).
Proof.
  intros Hrun.
  destruct (update_amounts_Some _ _ _ _ _ Hrun) as (st1 & Hrows & -> & ->).
  split.
  - intros k r Hin.
    exact (update_row_amounts_fetched _ _ _ _ _ _ Hrows
             (rows_all_NoDup st (pk self)) Hin).
  - change (billed_amount (settled_invoice st1 self))
      with (rows_total st1 (pk self)).
    unfold rows_total.
    rewrite (sum_with_Permutation _ _ _
               (update_row_amounts_Permutation _ _ _ Hrows)).
    rewrite sum_with_fmap. apply sum_with_ext. intros [k r] Hin. simpl.
    destruct (update_row_amounts_fetched _ _ _ _ _ _ Hrows
                (rows_all_NoDup st (pk self)) Hin) as (a & -> & _).
    reflexivity.
Qed.

(** X2. A completed [update_amounts] writes nothing but the amounts of
    the invoice's own rows and the invoice itself: payments and sequences
    are as before, so are the other invoices, the rows of other invoices
    and the soft-deleted rows; no row appears or disappears; and the
    invoice keeps its key, the invoice it credits, its number and its
    type. *)
Theorem update_amounts_frame st self st' self' :
  update_amounts calc st self = Some (st', self') →
  payments st' = payments st
  ∧ sequences st' = sequences st
  ∧ (∀ j, j ≠ pk self → invoices st' !! j = invoices st !! j)
  ∧ (∀ k r, rows st !! k = Some r →
       row_invoice r ≠ pk self ∨ row_deleted r ≠ None →
       rows st' !! k = Some r)
  ∧ dom (rows st') = dom (rows st)
  ∧ pk self' = pk self
  ∧ credited_invoice self' = credited_invoice self
  ∧ number self' = number self
  ∧ type self' = type self.
Proof.
  intros Hrun.
  destruct (update_amounts_Some _ _ _ _ _ Hrun) as (st1 & Hrows & -> & ->).
  destruct (update_row_amounts_frame _ _ _ _ Hrows) as (Hinv & Hpay & Hseq).
  split; [exact Hpay|]. split; [exact Hseq|]. split; [|split; [|split]].
  - intros j Hj. unfold save_invoice. simpl.
    rewrite lookup_insert_ne by done. by rewrite Hinv.
  - intros k r Hk Hother. simpl.
    rewrite (update_row_amounts_other _ _ _ _ k Hrows); [done|].
    intros Hin. apply elem_of_fst_rows_all in Hin as [r' Hin].
    apply elem_of_rows_all in Hin as (Hk' & Hi & Hd).
    rewrite Hk in Hk'. inversion Hk'; subst r'. by destruct Hother.
  - apply set_eq. intros k. rewrite !elem_of_dom. simpl.
    destruct (decide (k ∈ (rows_all st (pk self)).*1)) as [Hfetched|Hother].
    + apply elem_of_fst_rows_all in Hfetched as [r Hin].
      destruct (update_row_amounts_fetched _ _ _ _ _ _ Hrows
                  (rows_all_NoDup st (pk self)) Hin) as (a & _ & ->).
      apply elem_of_rows_all in Hin as (-> & _). by split; eexists.
    + by rewrite (update_row_amounts_other _ _ _ _ k Hrows).
  - repeat split; reflexivity.
Qed.

Lemma update_row_amounts_raises qs st k r :
  (k, r) ∈ qs → new_amount calc r = None →
  update_row_amounts calc qs st = None.
Proof.
  revert st. induction qs as [|[k0 r0] qs IH]; intros st Hin Hnone.
  - by apply not_elem_of_nil in Hin.
  - simpl. unfold update_amount.
    apply elem_of_cons in Hin as [Heq|Hin].
    + inversion Heq; subst k0 r0. by rewrite Hnone.
    + destruct (new_amount calc r0); simpl; [by apply IH|done].
Qed.

(** X3. [update_amounts] raises when the helper raises for one of the
    invoice's rows that are not soft-deleted. *)
Theorem update_amounts_raises st self k r :
  rows st !! k = Some r → row_invoice r = pk self → row_deleted r = None →
  new_amount calc r = None →
  update_amounts calc st self = None.
Proof.
  intros Hk Hi Hd Hnone. rewrite update_amounts_eq.
  rewrite (update_row_amounts_raises (rows_all st (pk self)) st k r);
    [done| |done].
  by apply elem_of_rows_all.
Qed.

Lemma update_row_amounts_set st qs I S :
  update_row_amounts calc qs (set_invoices I (set_sequences S st))
  = (λ st1, set_invoices I (set_sequences S st1))
      <$> update_row_amounts calc qs st.
Proof.
  revert st. induction qs as [|[k r] qs IH]; intros st; simpl; [done|].
  unfold update_amount. destruct (new_amount calc r) as [a|]; simpl; [|done].
  apply (IH (save_row k (with_amount a r) st)).
Qed.

Lemma credited_total_tables st st2 i :
  invoices st2 = invoices st → rows st2 = rows st →
  credited_total st2 i = credited_total st i.
Proof.
  intros Hinv Hrows.
  unfold credited_total, credit_invoices_all, rows_total, rows_all.
  by rewrite Hinv, Hrows.
Qed.

Lemma settled_invoice_with_number st1 st2 self v :
  invoices st1 !! pk self = Some self →
  invoices st2 = <[pk self := with_number v self]> (invoices st1) →
  rows st2 = rows st1 → payments st2 = payments st1 →
  settled_invoice st2 (with_number v self)
  = with_number v (settled_invoice st1 self).
Proof.
  intros Hin Hinv Hrows Hpay.
  assert (Hc : credited_total st2 (pk self) = credited_total st1 (pk self)).
  { rewrite (credited_total_tables (save_invoice (with_number v self) st1));
      [|done|done].
    by apply (credited_total_save_invoice st1 self). }
  unfold settled_invoice.
  change (pk (with_number v self)) with (pk self).
  rewrite Hc.
  unfold rows_total, payments_total, rows_all, payments_all.
  rewrite Hrows, Hpay. reflexivity.
Qed.

(** X6. Settling and numbering a stored invoice can be done in either
    order: [generate_number] followed by [update_amounts] on the object
    it returns gives the same store, the same invoice and the same number
    as [update_amounts] followed by [generate_number], and raises in the
    same cases. *)
Theorem update_amounts_generate_number_commute st self :
  invoices st !! pk self = Some self →
  (λ r, (r.1, r.2, (generate_number st self).2))
    <$> update_amounts calc (generate_number st self).1.1
          (generate_number st self).1.2
  = (λ r, generate_number r.1 r.2) <$> update_amounts calc st self.
Proof.
  intros Hin. destruct (number_bool (number self)) eqn:Hb.
  - assert (Hgen : ∀ st0 self0, number self0 = number self →
               generate_number st0 self0 = (st0, self0, number self)).
    { intros st0 self0 Hn. unfold generate_number. by rewrite Hn, Hb. }
    rewrite (Hgen st self eq_refl). simpl.
    destruct (update_amounts calc st self) as [[st' self']|] eqn:Hrun;
      [|done].
    destruct (update_amounts_Some _ _ _ _ _ Hrun) as (st1 & _ & _ & ->).
    simpl. by rewrite Hgen.
  - rewrite (generate_number_unnumbered st self Hb). cbv zeta.
    set (v := (get_next_value "invoice_numbers" 1000000 (sequences st)).1).
    set (S := (get_next_value "invoice_numbers" 1000000 (sequences st)).2).
    cbn [fst snd].
    rewrite !update_amounts_eq.
    change (pk (with_number v self)) with (pk self).
    change (rows_all (save_invoice (with_number v self) (set_sequences S st))
              (pk self)) with (rows_all st (pk self)).
    change (save_invoice (with_number v self) (set_sequences S st))
      with (set_invoices (<[pk self := with_number v self]> (invoices st))
              (set_sequences S st)).
    rewrite update_row_amounts_set.
    destruct (update_row_amounts calc (rows_all st (pk self)) st)
      as [st1|] eqn:Hrows; [|done].
    destruct (update_row_amounts_frame _ _ _ _ Hrows) as (Hinv & _ & Hseq).
    cbn [fmap option_fmap option_map mbind option_bind fst snd].
    rewrite generate_number_unnumbered by exact Hb. cbv zeta.
    change (sequences (save_invoice (settled_invoice st1 self) st1))
      with (sequences st1).
    rewrite Hseq. fold v S. cbn [fst snd].
    rewrite <- Hinv in Hin.
    rewrite (settled_invoice_with_number st1 _ self v Hin);
      [|by rewrite Hinv|done|done].
    f_equal. f_equal. f_equal.
    unfold save_invoice, set_invoices, set_sequences. simpl.
    by rewrite !insert_insert_eq, Hinv.
Qed.

End SettlementFurther.


(** X5. Two invoices of the store without number, numbered one after
    the other, receive consecutive numbers, when every stored number was
    handed out by the sequence and the next two values of the sequence
    fit the column. *)
Theorem generate_number_consecutive st a b :
  invoices st !! pk a = Some a →
  invoices st !! pk b = Some b →
  numbers_issued st →
  invoice_numbers_fit 2 st →
  number_bool (number a) = false →
  number_bool (number b) = false →
  ∃ n,
    (generate_number st a).2 = Some n
    ∧ (generate_number (generate_number st a).1.1 b).2 = Some (n + 1).
Proof.
  intros _ _ _ _ Ha Hb.
  rewrite (generate_number_unnumbered st a Ha). cbn [fst snd].
  rewrite generate_number_unnumbered by exact Hb. cbn [fst snd].
  eexists. split; [reflexivity|].
  unfold get_next_value. simpl. by rewrite lookup_insert_eq.
Qed.

(** * Land use agreement identifiers *)

Lemma next_pk_above {V} (table : gmap Z V) k v :
  table !! k = Some v → k < next_pk table.
Proof.
  intros Hk. apply elem_of_map_to_list in Hk. unfold next_pk.
  induction (map_to_list table) as [|[k0 v0] l IH]; simpl.
  - by apply not_elem_of_nil in Hk.
  - apply elem_of_cons in Hk as [Heq|Hin].
    + inversion Heq; subst. lia.
    + specialize (IH Hin). lia.
Qed.

Lemma next_pk_fresh {V} (table : gmap Z V) : table !! next_pk table = None.
Proof.
  destruct (table !! next_pk table) as [v|] eqn:Hk; [|done].
  apply next_pk_above in Hk. lia.
Qed.

Lemma next_pk_positive {V} (table : gmap Z V) : 1 ≤ next_pk table.
Proof.
  unfold next_pk.
  induction (map_to_list table) as [|[k0 v0] l IH]; simpl; lia.
Qed.

Lemma number_bool_next_pk {V} (table : gmap Z V) :
  number_bool (Some (next_pk table)) = true.
Proof.
  pose proof (next_pk_positive table). simpl.
  by destruct (Z.eqb_spec (next_pk table) 0); [lia|].
Qed.

Lemma aggregate_Max_ge {A} (f : A → Z) l x v :
  aggregate_Max f l = Some v → x ∈ l → f x ≤ v.
Proof.
  destruct l as [|y l]; [done|]. simpl. intros Hv Hin. inversion Hv as [Hv'].
  clear Hv Hv'. revert x y Hin.
  induction l as [|z l IH]; intros x y Hin; simpl.
  - apply list_elem_of_singleton in Hin as ->. lia.
  - apply elem_of_cons in Hin as [->|Hin].
    + specialize (IH y y ltac:(left)). lia.
    + apply elem_of_cons in Hin as [->|Hin]; [lia|].
      specialize (IH x y ltac:(by right)). lia.
Qed.

Lemma aggregate_Max_elem {A} (f : A → Z) l v :
  aggregate_Max f l = Some v → ∃ x, x ∈ l ∧ f x = v.
Proof.
  destruct l as [|y l]; [done|]. simpl. intros Hv. inversion Hv as [Hv'].
  clear Hv Hv'. revert y.
  induction l as [|z l IH]; intros y; simpl.
  - exists y. split; [left|done].
  - destruct (IH y) as (x & Hin & Hx).
    destruct (Z.max_spec (f z) (foldr (λ y acc, Z.max (f y) acc) (f y) l))
      as [[_ ->]|[_ ->]].
    + exists x. split; [|done].
      apply elem_of_cons in Hin as [->|Hin]; [left|right; by right].
    + exists z. split; [right; left|done].
Qed.

Lemma elem_of_identifiers_filter st t m d k i :
  (k, i) ∈ identifiers_filter st t m d
  ↔ identifiers st !! k = Some i
    ∧ identifier_type i = t ∧ identifier_municipality i = m
    ∧ identifier_district i = d ∧ identifier_deleted i = None.
Proof.
  unfold identifiers_filter.
  rewrite list_elem_of_filter, elem_of_map_to_list. simpl. tauto.
Qed.

(** No visible identifier of the group has a sequence above
    [max_sequence]. *)
Lemma max_sequence_ge st t m d k i :
  (k, i) ∈ identifiers_filter st t m d → sequence i ≤ max_sequence st t m d.
Proof.
  intros Hin. unfold max_sequence.
  destruct (aggregate_Max _ (identifiers_filter st t m d)) as [v|] eqn:Hv.
  - pose proof (aggregate_Max_ge _ _ _ _ Hv Hin) as Hle. simpl in Hle.
    destruct (Z.eqb_spec v 0); lia.
  - destruct (identifiers_filter st t m d); [|done].
    by apply not_elem_of_nil in Hin.
Qed.

(** [max_sequence] is 0 for a group without visible identifiers and is
    the sequence of one of them otherwise. *)
Lemma max_sequence_attained st t m d :
  (identifiers_filter st t m d = [] ∧ max_sequence st t m d = 0)
  ∨ ∃ k i, (k, i) ∈ identifiers_filter st t m d
           ∧ sequence i = max_sequence st t m d.
Proof.
  unfold max_sequence.
  destruct (aggregate_Max _ (identifiers_filter st t m d)) as [v|] eqn:Hv.
  - right. destruct (aggregate_Max_elem _ _ _ Hv) as ([k i] & Hin & Hx).
    exists k, i. split; [done|]. simpl in Hx.
    destruct (Z.eqb_spec v 0); lia.
  - left. by destruct (identifiers_filter st t m d).
Qed.


Lemma identifiers_create_Some i st k st' :
  identifiers_create i st = Some (k, st') →
  k = next_pk (identifiers st)
  ∧ st' = {| identifiers := <[k := i]> (identifiers st);
             agreements := agreements st |}.
Proof.
  unfold identifiers_create. case_decide; [done|].
  intros Heq. inversion Heq. done.
Qed.

(** What [create_identifier] does for an agreement without identifier
    whose type, municipality and district are set. *)
Lemma create_identifier_eq st self t m d :
  number_bool (identifier_id self) = false →
  agreement_type self = Some t →
  agreement_municipality self = Some m →
  agreement_district self = Some d →
  create_identifier st self
  = '(k, st') ← identifiers_create
                  (mkIdentifier t m d (max_sequence st t m d + 1) None) st;
    Some (st', with_identifier k self).
Proof.
  intros Hb Ht Hm Hd. unfold create_identifier. by rewrite Hb, Ht, Hm, Hd.
Qed.

(** X7. For an agreement without identifier whose type, municipality and
    district are set, a completed [create_identifier] stores one new
    identifier for that group under a new primary key and links the
    agreement to it; its sequence is above the sequence of every visible
    identifier of the group, and is 1 for the first of a group and one
    more than the largest otherwise; no other identifier changes. *)
Theorem create_identifier_sequence st self t m d st' self' :
  number_bool (identifier_id self) = false →
  agreement_type self = Some t →
  agreement_municipality self = Some m →
  agreement_district self = Some d →
  create_identifier st self = Some (st', self') →
  ∃ k i,
    identifiers st !! k = None
    ∧ identifiers st' = <[k := i]> (identifiers st)
    ∧ self' = with_identifier k self
    ∧ identifier_type i = t ∧ identifier_municipality i = m
    ∧ identifier_district i = d ∧ identifier_deleted i = None
    ∧ (∀ k0 i0, (k0, i0) ∈ identifiers_filter st t m d →
         sequence i0 < sequence i)
    ∧ ((identifiers_filter st t m d = [] ∧ sequence i = 1)
       ∨ ∃ k0 i0, (k0, i0) ∈ identifiers_filter st t m d
                  ∧ sequence i = sequence i0 + 1).
Proof.
  intros Hb Ht Hm Hd. rewrite (create_identifier_eq st self t m d Hb Ht Hm Hd).
  destruct (identifiers_create _ st) as [[k st1]|] eqn:Hcreate; [|done].
  simpl. intros Heq. inversion Heq; subst st' self'.
  apply identifiers_create_Some in Hcreate as [-> ->].
  eexists _, _. split; [apply next_pk_fresh|]. split; [reflexivity|].
  split; [reflexivity|]. simpl. repeat (split; [reflexivity|]). split.
  - intros k0 i0 Hin. pose proof (max_sequence_ge _ _ _ _ _ _ Hin). lia.
  - destruct (max_sequence_attained st t m d) as [[Hnil H0]|(k0 & i0 & Hin & Hmax)].
    + left. split; [done|]. lia.
    + right. exists k0, i0. split; [done|]. lia.
Qed.

Lemma create_identifier_settled st self :
  settled_identifier self → create_identifier st self = Some (st, self).
Proof.
  unfold settled_identifier, create_identifier.
  intros [->|[Ht|[Hm|Hd]]]; [done| | |];
    destruct (number_bool (identifier_id self)); try done.
  - by rewrite Ht.
  - rewrite Hm. by destruct (agreement_type self).
  - rewrite Hd.
    by destruct (agreement_type self), (agreement_municipality self).
Qed.

Lemma create_identifier_settles st self st' self' :
  create_identifier st self = Some (st', self') → settled_identifier self'.
Proof.
  unfold create_identifier, settled_identifier.
  destruct (number_bool (identifier_id self)) eqn:Hb.
  { intros Heq. inversion Heq; subst. by left. }
  destruct (agreement_type self) as [t|] eqn:Ht;
    [|intros Heq; inversion Heq; subst; tauto].
  destruct (agreement_municipality self) as [m|] eqn:Hm;
    [|intros Heq; inversion Heq; subst; tauto].
  destruct (agreement_district self) as [d|] eqn:Hd;
    [|intros Heq; inversion Heq; subst; tauto].
  destruct (identifiers_create _ st) as [[k st1]|] eqn:Hcreate; [|done].
  simpl. intros Heq. inversion Heq; subst st' self'.
  apply identifiers_create_Some in Hcreate as [-> _].
  left. apply number_bool_next_pk.
Qed.

(** X8. [create_identifier] creates at most one identifier for an
    agreement: called again on what a completed call returned, it
    changes nothing. *)
Theorem create_identifier_once st self st' self' :
  create_identifier st self = Some (st', self') →
  create_identifier st' self' = Some (st', self').
Proof.
  intros Hcreate. apply create_identifier_settled.
  by apply (create_identifier_settles st self st').
Qed.


(** X10. Two agreements of the same type, municipality and district that
    get their identifiers one after the other get consecutive sequence
    numbers. *)
Theorem create_identifier_consecutive st a b t m d st1 a1 st2 b1 ka kb ia ib :
  number_bool (identifier_id a) = false →
  number_bool (identifier_id b) = false →
  agreement_type a = Some t → agreement_municipality a = Some m →
  agreement_district a = Some d →
  agreement_type b = Some t → agreement_municipality b = Some m →
  agreement_district b = Some d →
  create_identifier st a = Some (st1, a1) →
  create_identifier st1 b = Some (st2, b1) →
  identifier_id a1 = Some ka → identifier_id b1 = Some kb →
  identifiers st2 !! ka = Some ia → identifiers st2 !! kb = Some ib →
  ka ≠ kb ∧ sequence ib = sequence ia + 1.
Proof.
  intros Hba Hbb Hta Hma Hda Htb Hmb Hdb Hca Hcb Hka Hkb Hia Hib.
  rewrite (create_identifier_eq st a t m d Hba Hta Hma Hda) in Hca.
  destruct (identifiers_create _ st) as [[k st']|] eqn:Hcreate; [|done].
  simpl in Hca. inversion Hca; subst st' a1. clear Hca.
  apply identifiers_create_Some in Hcreate as [-> ->].
  simpl in Hka. inversion Hka; subst ka. clear Hka.
  set (i := mkIdentifier t m d (max_sequence st t m d + 1) None) in *.
  set (st1 := {| identifiers := <[next_pk (identifiers st) := i]> (identifiers st);
                 agreements := agreements st |}) in *.
  assert (Hmax1 : max_sequence st1 t m d = max_sequence st t m d + 1).
  { assert (Hnew : (next_pk (identifiers st), i) ∈ identifiers_filter st1 t m d).
    { apply elem_of_identifiers_filter. split; [apply lookup_insert_eq|done]. }
    pose proof (max_sequence_ge _ _ _ _ _ _ Hnew) as Hge. simpl in Hge.
    destruct (max_sequence_attained st1 t m d)
      as [[Hnil _]|(k0 & i0 & Hin & Hmax)].
    - rewrite Hnil in Hnew. by apply not_elem_of_nil in Hnew.
    - apply elem_of_identifiers_filter in Hin as (Hk0 & Hrest).
      simpl in Hk0.
      destruct (decide (next_pk (identifiers st) = k0)) as [<-|Hne].
      + rewrite lookup_insert_eq in Hk0. inversion Hk0; subst i0.
        simpl in Hmax. lia.
      + rewrite lookup_insert_ne in Hk0 by done.
        assert (Hold : (k0, i0) ∈ identifiers_filter st t m d)
          by (by apply elem_of_identifiers_filter).
        pose proof (max_sequence_ge _ _ _ _ _ _ Hold). lia. }
  rewrite (create_identifier_eq st1 b t m d Hbb Htb Hmb Hdb) in Hcb.
  destruct (identifiers_create _ st1) as [[k st']|] eqn:Hcreate; [|done].
  simpl in Hcb. inversion Hcb; subst st' b1. clear Hcb.
  apply identifiers_create_Some in Hcreate as [-> ->].
  simpl in Hkb. inversion Hkb; subst kb. clear Hkb.
  simpl in Hia, Hib.
  pose proof (next_pk_fresh (identifiers st1)) as Hfresh.
  assert (Hne : next_pk (identifiers st1) ≠ next_pk (identifiers st)).
  { intros Heq. rewrite Heq in Hfresh. subst st1. simpl in Hfresh.
    by rewrite lookup_insert_eq in Hfresh. }
  rewrite lookup_insert_eq in Hib. inversion Hib; subst ib.
  rewrite lookup_insert_ne in Hia by done.
  subst st1. simpl in Hia. rewrite lookup_insert_eq in Hia.
  inversion Hia; subst ia. split; [done|]. simpl. lia.
Qed.

Lemma Model_save_again st self :
  Model_save (Model_save st self).1 (Model_save st self).2
  = Model_save st self.
Proof.
  unfold Model_save at 2 3 4.
  destruct (agreement_pk self) as [k|] eqn:Hk; simpl.
  - unfold Model_save. rewrite Hk. simpl. by rewrite insert_insert_eq.
  - unfold Model_save. simpl. by rewrite insert_insert_eq.
Qed.

Lemma Model_save_settled st self :
  settled_identifier self → settled_identifier (Model_save st self).2.
Proof. unfold Model_save. by destruct (agreement_pk self). Qed.

(** X11. Saving an agreement again right after a completed [save] changes
    nothing: no second identifier and no second agreement record are
    created.  The saved agreement is stored under its primary key. *)
Theorem save_again st self st' self' :
  save st self = Some (st', self') →
  save st' self' = Some (st', self')
  ∧ ∃ k, agreement_pk self' = Some k ∧ agreements st' !! k = Some self'.
Proof.
  unfold save at 1.
  destruct (create_identifier st self) as [[st1 self1]|] eqn:Hcreate; [|done].
  simpl. intros Heq. injection Heq as Heq.
  apply create_identifier_settles in Hcreate.
  apply (Model_save_settled st1) in Hcreate.
  pose proof (Model_save_again st1 self1) as Hagain.
  rewrite Heq in Hcreate, Hagain. simpl in Hcreate, Hagain. split.
  - unfold save. rewrite (create_identifier_settled st' self' Hcreate).
    simpl. by rewrite Hagain.
  - revert Heq. unfold Model_save.
    destruct (agreement_pk self1) as [k|] eqn:Hk; intros Heq;
      inversion Heq; subst st' self'; simpl.
    + exists k. split; [done|]. apply lookup_insert_eq.
    + eexists. split; [reflexivity|]. apply lookup_insert_eq.
Qed.

(** * Rows as dictionaries *)

Lemma dict_snoc {V} (pairs : list (string * V)) k v :
  dict (pairs ++ [(k, v)]) = <[k := v]> (dict pairs).
Proof. unfold dict. by rewrite fold_left_app. Qed.

(** A key of [dict pairs] maps to the value of its last pair. *)
Lemma dict_lookup {V} (pairs : list (string * V)) k v :
  dict pairs !! k = Some v
  ↔ ∃ i : nat, pairs !! i = Some (k, v)
               ∧ ∀ (j : nat) v', (i < j)%nat → pairs !! j ≠ Some (k, v').
Proof.
  induction pairs as [|[k0 v0] pairs IH] using rev_ind.
  - unfold dict. simpl. rewrite lookup_empty. split; [done|].
    by intros (i & Hi & _).
  - rewrite dict_snoc. destruct (decide (k0 = k)) as [->|Hne].
    + rewrite lookup_insert_eq. split.
      * intros Heq. inversion Heq; subst v0. exists (length pairs).
        split; [by rewrite list_lookup_middle|].
        intros j v' Hj Hlook. apply lookup_lt_Some in Hlook.
        rewrite length_app in Hlook. simpl in Hlook. lia.
      * intros (i & Hi & Hlast).
        destruct (decide (i = length pairs)) as [->|Hi'].
        -- rewrite list_lookup_middle in Hi by done. by inversion Hi.
        -- exfalso. apply (Hlast (length pairs) v0).
           ++ apply lookup_lt_Some in Hi. rewrite length_app in Hi.
              simpl in Hi. lia.
           ++ by rewrite list_lookup_middle.
    + rewrite lookup_insert_ne by done. rewrite IH. split.
      * intros (i & Hi & Hlast). exists i.
        split; [by apply lookup_app_l_Some|].
        intros j v' Hj Hlook.
        apply lookup_app_Some in Hlook as [Hlook|[_ Hlook]].
        -- by apply (Hlast j v').
        -- apply list_lookup_singleton_Some in Hlook as [_ Heq].
           by inversion Heq.
      * intros (i & Hi & Hlast).
        apply lookup_app_Some in Hi as [Hi|[_ Hi]].
        -- exists i. split; [done|]. intros j v' Hj Hlook.
           apply (Hlast j v' Hj). by apply lookup_app_l_Some.
        -- apply list_lookup_singleton_Some in Hi as [_ Heq].
           by inversion Heq.
Qed.

Lemma lookup_zip {A B} (l : list A) (k : list B) (i : nat) x y :
  zip l k !! i = Some (x, y) ↔ l !! i = Some x ∧ k !! i = Some y.
Proof.
  rewrite lookup_zip_with_Some. split.
  - intros (x' & y' & Heq & Hx & Hy). by inversion Heq; subst.
  - intros [Hx Hy]. by exists x, y.
Qed.

Lemma dict_zip_lookup {V} (names : list string) (row : list V) name cell :
  dict (zip names row) !! name = Some cell
  ↔ ∃ i : nat,
      names !! i = Some name ∧ row !! i = Some cell
      ∧ ∀ j : nat, (i < j)%nat → (j < length row)%nat →
                   names !! j ≠ Some name.
Proof.
  rewrite dict_lookup. split.
  - intros (i & Hi & Hlast). apply lookup_zip in Hi as [Hc Hr].
    exists i. split; [done|]. split; [done|].
    intros j Hij Hj Hname.
    destruct (lookup_lt_is_Some_2 row j Hj) as [cell' Hcell'].
    apply (Hlast j cell' Hij). by apply lookup_zip.
  - intros (i & Hc & Hr & Hlast). exists i. split; [by apply lookup_zip|].
    intros j cell' Hij Hlook. apply lookup_zip in Hlook as [Hc' Hr'].
    apply (Hlast j Hij); [|done]. by apply lookup_lt_Some in Hr'.
Qed.

Lemma rows_to_dict_list_nth {M V} (cursor : Cursor M V) (n : nat) :
  rows_to_dict_list cursor !! n
  = (λ row, dict (zip (columns cursor) row)) <$> fetch cursor !! n.
Proof. unfold rows_to_dict_list. apply list_lookup_fmap. Qed.

(** X12. [rows_to_dict_list] returns one dictionary per row, in order.
    In the dictionary of a row a name maps to a cell exactly when the cell
    stands in the row under a column of that name and no later column
    that the row reaches has the same name: of two columns with one name
    the later wins, and columns beyond the end of a short row are left
    out. *)
Theorem rows_to_dict_list_lookup {M V} (cursor : Cursor M V) (n : nat) row :
  fetch cursor !! n = Some row →
  length (rows_to_dict_list cursor) = length (fetch cursor)
  ∧ ∃ d, rows_to_dict_list cursor !! n = Some d
         ∧ ∀ name cell,
             d !! name = Some cell
             ↔ ∃ i : nat,
                 columns cursor !! i = Some name ∧ row !! i = Some cell
                 ∧ ∀ j : nat, (i < j)%nat → (j < length row)%nat →
                              columns cursor !! j ≠ Some name.
Proof.
  intros Hrow. split; [apply length_fmap|].
  exists (dict (zip (columns cursor) row)).
  split; [by rewrite rows_to_dict_list_nth, Hrow|].
  intros name cell. apply dict_zip_lookup.
Qed.

(** X13. When the column names are distinct and a row has a cell for
    every column, reading the row's dictionary column by column gives the
    row back, and the dictionary has no other key. *)
Theorem rows_to_dict_list_round_trip {M V} (cursor : Cursor M V) (n : nat)
  row d :
  NoDup (columns cursor) →
  length row = length (columns cursor) →
  fetch cursor !! n = Some row →
  rows_to_dict_list cursor !! n = Some d →
  (λ name, d !! name) <$> columns cursor = Some <$> row
  ∧ dom d = list_to_set (columns cursor).
Proof.
  intros Hnd Hlen Hrow Hd.
  rewrite rows_to_dict_list_nth, Hrow in Hd. simpl in Hd.
  injection Hd as Hd.
  pose proof (dict_zip_lookup (columns cursor) row) as Hspec.
  rewrite Hd in Hspec. clear Hd.
  assert (Hcell : ∀ (i : nat) name cell,
            columns cursor !! i = Some name → row !! i = Some cell →
            d !! name = Some cell).
  { intros i name cell Hc Hr. apply Hspec. exists i.
    split; [done|]. split; [done|]. intros j Hij _ Hc'.
    pose proof (NoDup_lookup _ _ _ _ Hnd Hc Hc'). lia. }
  split.
  - apply list_eq. intros i. rewrite !list_lookup_fmap.
    destruct (columns cursor !! i) as [name|] eqn:Hc; simpl.
    + destruct (lookup_lt_is_Some_2 row i) as [cell Hr].
      { apply lookup_lt_Some in Hc. lia. }
      rewrite Hr. simpl. f_equal. by apply (Hcell i).
    + apply lookup_ge_None in Hc.
      rewrite (lookup_ge_None_2 row i) by lia. done.
  - apply set_eq. intros name.
    rewrite elem_of_dom, elem_of_list_to_set, list_elem_of_lookup. split.
    + intros [cell Hcell']. apply Hspec in Hcell' as (i & Hc & _). by exists i.
    + intros [i Hc]. destruct (lookup_lt_is_Some_2 row i) as [cell Hr].
      { apply lookup_lt_Some in Hc. lia. }
      exists cell. by apply (Hcell i name).
Qed.

(** * Lease identifiers as strings *)

Lemma is_digit_other a :
  is_digit a = true →
  is_space a = false ∧ Ascii.eqb a "_" = false
  ∧ Ascii.eqb a "-" = false ∧ Ascii.eqb a "+" = false.
Proof.
  destruct a as [[|] [|] [|] [|] [|] [|] [|] [|]]; vm_compute; intros H;
    (discriminate H || done).
Qed.

Lemma all_digits_string_of_uint d :
  all_digits (NilEmpty.string_of_uint d) = true.
Proof. induction d; simpl; done. Qed.

Lemma all_digits_lstrip s : all_digits s = true → lstrip s = s.
Proof.
  destruct s as [|a s]; [done|]. simpl. intros [Ha _]%andb_prop.
  by destruct (is_digit_other a Ha) as (-> & _).
Qed.

Lemma all_digits_rstrip s : all_digits s = true → rstrip s = s.
Proof.
  induction s as [|a s IH]; [done|]. simpl. intros [Ha Hs]%andb_prop.
  rewrite (IH Hs). destruct (is_digit_other a Ha) as (-> & _).
  by destruct s.
Qed.

Lemma all_digits_without_underscores s :
  all_digits s = true → without_underscores s = s.
Proof.
  induction s as [|a s IH]; [done|]. simpl. intros [Ha Hs]%andb_prop.
  rewrite (IH Hs). by destruct (is_digit_other a Ha) as (_ & -> & _).
Qed.

Lemma all_digits_groups s b :
  all_digits s = true →
  digit_groups s b = match s with EmptyString => b | _ => true end.
Proof.
  revert b. induction s as [|a s IH]; intros b; [done|]. simpl.
  intros [Ha Hs]%andb_prop. rewrite Ha, (IH _ Hs). by destruct s.
Qed.

Lemma str_index_all_digits s : all_digits s = true → str_index "-" s = None.
Proof.
  induction s as [|a s IH]; [done|]. simpl. intros [Ha Hs]%andb_prop.
  destruct (is_digit_other a Ha) as (_ & _ & -> & _). by rewrite (IH Hs).
Qed.

(** On a non-empty string of digits [int] reads the decimal number. *)
Lemma py_int_all_digits s :
  all_digits s = true → s ≠ EmptyString →
  py_int s = Z.of_uint <$> NilEmpty.uint_of_string s.
Proof.
  intros Hs Hne. unfold py_int.
  rewrite (all_digits_lstrip s Hs), (all_digits_rstrip s Hs).
  assert (Hint : int_digits s = Z.of_uint <$> NilEmpty.uint_of_string s).
  { unfold int_digits.
    rewrite (all_digits_groups s false Hs), all_digits_without_underscores
      by done.
    by destruct s. }
  destruct s as [|a t]; [done|].
  simpl in Hs. apply andb_prop in Hs as [Ha _].
  destruct a as [[|] [|] [|] [|] [|] [|] [|] [|]];
    first [discriminate Ha | exact Hint].
Qed.

Lemma str_int_nonneg n :
  0 ≤ n →
  ∃ d, str_int n = NilEmpty.string_of_uint d ∧ d ≠ Decimal.Nil
       ∧ Z.of_uint d = n.
Proof.
  intros Hn. destruct n as [|p|p]; [| |lia].
  - exists (Decimal.D0 Decimal.Nil). by repeat split.
  - exists (Pos.to_uint p). unfold str_int. simpl.
    pose proof (Unsigned.to_uint_nonnil p) as Hnil.
    split; [by destruct (Pos.to_uint p)|]. split; [done|].
    unfold Z.of_uint. by rewrite Unsigned.of_to.
Qed.

Lemma str_int_all_digits n : 0 ≤ n → all_digits (str_int n) = true.
Proof.
  intros Hn. destruct (str_int_nonneg n Hn) as (d & -> & _).
  apply all_digits_string_of_uint.
Qed.

(** [int] reads back what formatting an integer that is not negative
    wrote. *)
Lemma py_int_str_int n : 0 ≤ n → py_int (str_int n) = Some n.
Proof.
  intros Hn. destruct (str_int_nonneg n Hn) as (d & -> & Hnil & <-).
  rewrite py_int_all_digits.
  - by rewrite NilEmpty.usu.
  - apply all_digits_string_of_uint.
  - by destruct d.
Qed.

Lemma py_int_zero_digits s :
  all_digits s = true → s ≠ EmptyString →
  py_int (String "0" s) = py_int s.
Proof.
  intros Hs Hne. rewrite !py_int_all_digits by done. simpl.
  by destruct (NilEmpty.uint_of_string s).
Qed.

Lemma str_int_length n : 0 ≤ n → str_int n ≠ EmptyString.
Proof.
  intros Hn. destruct (str_int_nonneg n Hn) as (d & -> & Hnil & _).
  by destruct d.
Qed.

Lemma format_02_all_digits n :
  0 ≤ n → all_digits (format_02 n) = true ∧ py_int (format_02 n) = Some n.
Proof.
  intros Hn. unfold format_02.
  pose proof (str_int_all_digits n Hn) as Hd.
  pose proof (str_int_length n Hn) as Hne.
  destruct (String.length (str_int n) <? 2)%nat.
  - split; [done|]. rewrite py_int_zero_digits by done.
    by apply py_int_str_int.
  - split; [done|]. by apply py_int_str_int.
Qed.

Lemma str_int_below_10 n : 0 ≤ n < 10 → String.length (str_int n) = 1%nat.
Proof.
  intros Hn. destruct n as [|p|p]; [done| |lia].
  repeat (match goal with q : positive |- _ => destruct q; try lia end);
    reflexivity.
Qed.

Lemma format_02_length n : 0 ≤ n < 100 → String.length (format_02 n) = 2%nat.
Proof.
  intros Hn. destruct n as [|p|p]; [done| |lia].
  repeat (match goal with q : positive |- _ => destruct q; try lia end);
    reflexivity.
Qed.

Lemma str_index_split c s i :
  str_index c s = Some i →
  s = str_take i s +:+ String c (str_drop (i + 1) s)
  ∧ str_index c (str_take i s) = None.
Proof.
  revert i. induction s as [|a s IH]; intros i; [done|]. simpl.
  destruct (Ascii.eqb_spec a c) as [->|Hne].
  - intros Heq. inversion Heq; subst i. done.
  - destruct (str_index c s) as [j|] eqn:Hj; [|done]. simpl.
    intros Heq. inversion Heq; subst i. simpl.
    destruct (IH j eq_refl) as [Hs Hnone].
    split.
    { change (String a s
              = String a (str_take j s +:+ String c (str_drop (j + 1) s))).
      by rewrite <- Hs. }
    destruct (Ascii.eqb_spec a c); [done|]. by rewrite Hnone.
Qed.

(** X14. The string of an identifier reads back: when the type
    identifier has two characters and no hyphen, the municipality
    identifier is one digit, the district number is below 100 and the
    sequence is not negative, [expand_lease_identifier] of the string
    [__str__] writes returns the type identifier, the municipality, the
    district and the sequence it was written from. *)
Theorem expand_lease_identifier_identifier_str ty mu di k dv seq s :
  String.length ty = 2%nat → str_index "-" ty = None →
  0 ≤ k < 10 → mu = str_int k →
  py_int di = Some dv → 0 ≤ dv < 100 →
  0 ≤ seq →
  identifier_str ty mu di seq = Some s →
  expand_lease_identifier s
  = Some {| expanded_id := s;
            ALKUOSA := ty +:+ mu +:+ format_02 dv;
            TARKOITUS := ty;
            KUNTA := k;
            KAUPOSA := dv;
            JUOKSU := seq |}.
Proof.
  intros Hty Hhy Hk Hmu Hdi Hdv Hseq. unfold identifier_str.
  rewrite Hdi. simpl. intros Hs. injection Hs as <-.
  pose proof (str_int_below_10 k Hk) as Hlk.
  pose proof (str_int_all_digits k ltac:(lia)) as Hdk.
  pose proof (py_int_str_int k ltac:(lia)) as Hik.
  destruct (format_02_all_digits dv ltac:(lia)) as [Hdd Hid].
  pose proof (format_02_length dv Hdv) as Hld.
  pose proof (py_int_str_int seq Hseq) as Hiq.
  subst mu.
  destruct ty as [|a [|b [|? ?]]]; try discriminate Hty.
  destruct (str_int k) as [|c [|? ?]]; try discriminate Hlk.
  destruct (format_02 dv) as [|d [|e [|? ?]]]; try discriminate Hld.
  simpl in Hhy, Hdk, Hdd.
  destruct (Ascii.eqb a "-") eqn:Ha; [discriminate Hhy|].
  destruct (Ascii.eqb b "-") eqn:Hb; [discriminate Hhy|].
  apply andb_prop in Hdk as [Hc _].
  apply andb_prop in Hdd as [Hd He]. apply andb_prop in He as [He _].
  destruct (is_digit_other c Hc) as (_ & _ & Hc' & _).
  destruct (is_digit_other d Hd) as (_ & _ & Hd' & _).
  destruct (is_digit_other e He) as (_ & _ & He' & _).
  generalize dependent (str_int seq). intros tail Htail.
  change (String a (String b "") +:+ String c "" +:+ String d (String e "")
          +:+ "-" +:+ tail)
    with (String a (String b (String c (String d (String e (String "-" tail)))))).
  change (String a (String b "") +:+ String c "" +:+ String d (String e ""))
    with (String a (String b (String c (String d (String e ""))))).
  set (full := String a (String b (String c (String d (String e
                 (String "-" tail)))))).
  assert (Hindex : str_index "-" full = Some 5%nat).
  { subst full. simpl. by rewrite Ha, Hb, Hc', Hd', He'. }
  unfold expand_lease_identifier. rewrite Hindex. cbn [mbind option_bind].
  change (slice 2 3 full) with (String c ""). rewrite Hik.
  cbn [mbind option_bind].
  change (slice 3 5 full) with (String d (String e "")). rewrite Hid.
  cbn [mbind option_bind].
  change (str_drop (5 + 1) full) with tail. rewrite Htail.
  reflexivity.
Qed.

(** X15. [expand_lease_identifier] raises for an identifier without a
    hyphen.  When it returns, it has cut the identifier at its first
    hyphen: ALKUOSA is what stands before it and has no hyphen, and JUOKSU
    is the integer that stands after it. *)
Theorem expand_lease_identifier_hyphen id :
  (str_index "-" id = None → expand_lease_identifier id = None)
  ∧ ∀ e, expand_lease_identifier id = Some e →
      expanded_id e = id
      ∧ str_index "-" (ALKUOSA e) = None
      ∧ ∃ rest, id = ALKUOSA e +:+ "-" +:+ rest
                ∧ py_int rest = Some (JUOKSU e).
Proof.
  unfold expand_lease_identifier. split; [by intros ->|].
  intros e.
  destruct (str_index "-" id) as [i|] eqn:Hi; [|done]. simpl.
  destruct (py_int (slice 2 3 id)) as [kunta|]; [|done]. simpl.
  destruct (py_int (slice 3 5 id)) as [kauposa|]; [|done]. simpl.
  destruct (py_int (str_drop (i + 1) id)) as [juoksu|] eqn:Hj; [|done].
  simpl. intros He. injection He as <-. simpl.
  destruct (str_index_split _ _ _ Hi) as [Hsplit Hnone].
  split; [done|]. split; [done|].
  exists (str_drop (i + 1) id). by split.
Qed.

(** * The further properties on sample data *)

Lemma update_amounts_row_amounts_sample :
  update_amounts Sample.increase Sample.store Sample.charge
  = Some (Sample.store_settled, Sample.charge_settled)
  ∧ billed_amount Sample.charge_settled
    = sum_with (λ kr, default 0 (new_amount Sample.increase kr.2))
        (rows_all Sample.store (pk Sample.charge)).
Proof.
  split; [exact sample_update_amounts|].
  exact (proj2 (update_amounts_row_amounts Sample.increase _ _ _ _
                  sample_update_amounts)).
Defined.

Lemma update_amounts_frame_sample :
  update_amounts Sample.increase Sample.store Sample.charge
  = Some (Sample.store_settled, Sample.charge_settled)
  ∧ payments Sample.store_settled = payments Sample.store
  ∧ sequences Sample.store_settled = sequences Sample.store.
Proof.
  split; [exact sample_update_amounts|].
  destruct (update_amounts_frame Sample.increase _ _ _ _
              sample_update_amounts) as (Hp & Hs & _).
  split; [exact Hp|exact Hs].
Defined.

Lemma update_amounts_generate_number_commute_sample :
  invoices Sample.store !! pk Sample.charge = Some Sample.charge
  ∧ (λ r, (r.1, r.2, (generate_number Sample.store Sample.charge).2))
      <$> update_amounts Sample.increase
            (generate_number Sample.store Sample.charge).1.1
            (generate_number Sample.store Sample.charge).1.2
    = (λ r, generate_number r.1 r.2)
        <$> update_amounts Sample.increase Sample.store Sample.charge.
Proof.
  split; [exact sample_charge_stored|].
  exact (update_amounts_generate_number_commute Sample.increase Sample.store
           Sample.charge sample_charge_stored).
Defined.


Lemma sample_numbers_issued_two : numbers_issued SampleNumbers.store_two.
Proof.
  intros j inv n Hj Hn. exists 1000000. split; [reflexivity|].
  unfold SampleNumbers.store_two in Hj. simpl in Hj.
  destruct (decide (3 = j)) as [<-|H3].
  - rewrite lookup_insert_eq in Hj. inversion Hj; subst inv.
    discriminate Hn.
  - rewrite lookup_insert_ne in Hj by done.
    destruct (sample_numbers_issued j inv n Hj Hn) as (last & Hlast & Hle).
    assert (Hseq : sequences SampleNumbers.store !! "invoice_numbers"
                   = Some 1000000) by (vm_compute; reflexivity).
    rewrite Hseq in Hlast. inversion Hlast. lia.
Defined.

Lemma generate_number_consecutive_sample :
  invoices SampleNumbers.store_two !! pk SampleNumbers.unnumbered
  = Some SampleNumbers.unnumbered
  ∧ invoices SampleNumbers.store_two !! pk SampleNumbers.another
    = Some SampleNumbers.another
  ∧ numbers_issued SampleNumbers.store_two
  ∧ invoice_numbers_fit 2 SampleNumbers.store_two
  ∧ number_bool (number SampleNumbers.unnumbered) = false
  ∧ number_bool (number SampleNumbers.another) = false
  ∧ ∃ n,
      (generate_number SampleNumbers.store_two SampleNumbers.unnumbered).2
      = Some n
      ∧ (generate_number
           (generate_number SampleNumbers.store_two
              SampleNumbers.unnumbered).1.1
           SampleNumbers.another).2 = Some (n + 1).
Proof.
  assert (Ha : invoices SampleNumbers.store_two
               !! pk SampleNumbers.unnumbered
               = Some SampleNumbers.unnumbered)
    by (vm_compute; reflexivity).
  assert (Hb : invoices SampleNumbers.store_two !! pk SampleNumbers.another
               = Some SampleNumbers.another)
    by (vm_compute; reflexivity).
  assert (Hfit : invoice_numbers_fit 2 SampleNumbers.store_two)
    by (apply (sample_numbers_fit 2); lia).
  split; [exact Ha|]. split; [exact Hb|].
  split; [exact sample_numbers_issued_two|]. split; [exact Hfit|].
  split; [reflexivity|]. split; [reflexivity|].
  exact (generate_number_consecutive SampleNumbers.store_two
           SampleNumbers.unnumbered SampleNumbers.another Ha Hb
           sample_numbers_issued_two Hfit eq_refl eq_refl).
Defined.

Lemma update_amounts_raises_sample :
  rows SampleUndated.store !! 10
  = Some (mkRow 1 0 80000 250 (Some 5) None None)
  ∧ update_amounts Sample.increase SampleUndated.store Sample.charge = None.
Proof.
  assert (Hrow : rows SampleUndated.store !! 10
                 = Some (mkRow 1 0 80000 250 (Some 5) None None))
    by (vm_compute; reflexivity).
  split; [exact Hrow|].
  exact (update_amounts_raises Sample.increase SampleUndated.store
           Sample.charge 10 _ Hrow eq_refl eq_refl eq_refl).
Defined.

Lemma sample_create_first :
  create_identifier SampleAgreements.store SampleAgreements.first
  = Some (SampleAgreements.store_first,
          with_identifier 5 SampleAgreements.first).
Proof. vm_compute. reflexivity. Defined.

Lemma sample_create_second :
  create_identifier SampleAgreements.store_first SampleAgreements.second
  = Some (SampleAgreements.store_second,
          with_identifier 6 SampleAgreements.second).
Proof. vm_compute. reflexivity. Defined.

Lemma create_identifier_sequence_sample :
  create_identifier SampleAgreements.store SampleAgreements.first
  = Some (SampleAgreements.store_first,
          with_identifier 5 SampleAgreements.first)
  ∧ ∃ k i,
      identifiers SampleAgreements.store !! k = None
      ∧ identifiers SampleAgreements.store_first
        = <[k := i]> (identifiers SampleAgreements.store)
      ∧ ∀ k0 i0,
          (k0, i0) ∈ identifiers_filter SampleAgreements.store 7 1 5 →
          sequence i0 < sequence i.
Proof.
  split; [exact sample_create_first|].
  destruct (create_identifier_sequence SampleAgreements.store
              SampleAgreements.first 7 1 5 _ _
              eq_refl eq_refl eq_refl eq_refl sample_create_first)
    as (k & i & Hfresh & Hstore & _ & _ & _ & _ & _ & Habove & _).
  exists k, i. split; [exact Hfresh|]. split; [exact Hstore|exact Habove].
Defined.

Lemma create_identifier_once_sample :
  create_identifier SampleAgreements.store SampleAgreements.first
  = Some (SampleAgreements.store_first,
          with_identifier 5 SampleAgreements.first)
  ∧ create_identifier SampleAgreements.store_first
      (with_identifier 5 SampleAgreements.first)
    = Some (SampleAgreements.store_first,
            with_identifier 5 SampleAgreements.first).
Proof.
  split; [exact sample_create_first|].
  exact (create_identifier_once _ _ _ _ sample_create_first).
Defined.


Lemma create_identifier_consecutive_sample :
  create_identifier SampleAgreements.store SampleAgreements.first
  = Some (SampleAgreements.store_first,
          with_identifier 5 SampleAgreements.first)
  ∧ create_identifier SampleAgreements.store_first SampleAgreements.second
    = Some (SampleAgreements.store_second,
            with_identifier 6 SampleAgreements.second)
  ∧ identifiers SampleAgreements.store_second !! 5
    = Some (mkIdentifier 7 1 5 2 None)
  ∧ identifiers SampleAgreements.store_second !! 6
    = Some (mkIdentifier 7 1 5 3 None)
  ∧ 5 ≠ 6
  ∧ sequence (mkIdentifier 7 1 5 3 None)
    = sequence (mkIdentifier 7 1 5 2 None) + 1.
Proof.
  assert (H5 : identifiers SampleAgreements.store_second !! 5
               = Some (mkIdentifier 7 1 5 2 None)) by reflexivity.
  assert (H6 : identifiers SampleAgreements.store_second !! 6
               = Some (mkIdentifier 7 1 5 3 None)) by reflexivity.
  split; [exact sample_create_first|]. split; [exact sample_create_second|].
  split; [exact H5|]. split; [exact H6|].
  exact (create_identifier_consecutive SampleAgreements.store
           SampleAgreements.first SampleAgreements.second 7 1 5
           _ _ _ _ 5 6 _ _
           eq_refl eq_refl eq_refl eq_refl eq_refl eq_refl eq_refl eq_refl
           sample_create_first sample_create_second eq_refl eq_refl H5 H6).
Defined.

Lemma sample_save :
  save SampleAgreements.store SampleAgreements.first
  = Some (SampleAgreements.store_saved,
          mkAgreement (Some 1) (Some 5) (Some 7) (Some 1) (Some 5)).
Proof. vm_compute. reflexivity. Defined.

Lemma save_again_sample :
  save SampleAgreements.store SampleAgreements.first
  = Some (SampleAgreements.store_saved,
          mkAgreement (Some 1) (Some 5) (Some 7) (Some 1) (Some 5))
  ∧ save SampleAgreements.store_saved
      (mkAgreement (Some 1) (Some 5) (Some 7) (Some 1) (Some 5))
    = Some (SampleAgreements.store_saved,
            mkAgreement (Some 1) (Some 5) (Some 7) (Some 1) (Some 5)).
Proof.
  split; [exact sample_save|].
  exact (proj1 (save_again _ _ _ _ sample_save)).
Defined.

Lemma rows_to_dict_list_lookup_sample :
  fetch SampleCursor.cursor !! 0%nat = Some [1; 2; 3]
  ∧ length (rows_to_dict_list SampleCursor.cursor) = 2%nat
  ∧ ∃ d, rows_to_dict_list SampleCursor.cursor !! 0%nat = Some d
         ∧ d !! "ID" = Some 3.
Proof.
  assert (Hrow : fetch SampleCursor.cursor !! 0%nat = Some [1; 2; 3])
    by reflexivity.
  split; [exact Hrow|].
  destruct (rows_to_dict_list_lookup SampleCursor.cursor 0 [1; 2; 3] Hrow)
    as (Hlen & d & Hd & Hspec).
  split; [exact Hlen|]. exists d. split; [exact Hd|].
  apply Hspec. exists 2%nat. split; [reflexivity|]. split; [reflexivity|].
  intros j Hij Hj. simpl in Hj. lia.
Defined.

Lemma rows_to_dict_list_round_trip_sample :
  NoDup (columns SampleCursor.plain)
  ∧ length [4; 5] = length (columns SampleCursor.plain)
  ∧ fetch SampleCursor.plain !! 1%nat = Some [4; 5]
  ∧ rows_to_dict_list SampleCursor.plain !! 1%nat
    = Some (dict [("ID", 4); ("NIMI", 5)])
  ∧ (λ name, dict [("ID", 4); ("NIMI", 5)] !! name)
      <$> columns SampleCursor.plain = Some <$> [4; 5].
Proof.
  assert (Hnd : NoDup (columns SampleCursor.plain)).
  { unfold columns. simpl. apply NoDup_cons. split; [|apply NoDup_singleton].
    intros Hin. apply list_elem_of_singleton in Hin. discriminate Hin. }
  assert (Hlen : length [4; 5] = length (columns SampleCursor.plain))
    by reflexivity.
  assert (Hrow : fetch SampleCursor.plain !! 1%nat = Some [4; 5])
    by reflexivity.
  assert (Hd : rows_to_dict_list SampleCursor.plain !! 1%nat
               = Some (dict [("ID", 4); ("NIMI", 5)])) by reflexivity.
  split; [exact Hnd|]. split; [exact Hlen|]. split; [exact Hrow|].
  split; [exact Hd|].
  exact (proj1 (rows_to_dict_list_round_trip SampleCursor.plain 1 [4; 5] _
                  Hnd Hlen Hrow Hd)).
Defined.

(** The example of the docstring of [__str__]: MA, Helsinki (1), Vallila
    (22), sequence number 1. *)
Lemma expand_lease_identifier_identifier_str_sample :
  identifier_str "MA" "1" "22" 1 = Some "MA122-1"
  ∧ expand_lease_identifier "MA122-1"
    = Some {| expanded_id := "MA122-1"; ALKUOSA := "MA122";
              TARKOITUS := "MA"; KUNTA := 1; KAUPOSA := 22; JUOKSU := 1 |}.
Proof.
  assert (Hs : identifier_str "MA" "1" "22" 1 = Some "MA122-1")
    by reflexivity.
  split; [exact Hs|].
  exact (expand_lease_identifier_identifier_str "MA" "1" "22" 1 22 1 "MA122-1"
           eq_refl eq_refl ltac:(lia) eq_refl eq_refl ltac:(lia) ltac:(lia)
           Hs).
Defined.
